(** * richardparker: the template compiler, embedded and verified

    The development follows [src/compiler.js]: the tree parser [parse], the
    helpers of [helper] ([parseArg], [parsePath], [escapeJS], [output],
    [transformTree], [keepPath], [wrapTemplate]), the dispatcher [transform]
    inside [compile] and the bundled macros of [nativeMacros].  The runtime
    functions [resolve] and [each] that the generated code calls are those
    of the bundled build in the same file ([richardparker/index.js]), whose
    macros are modelled next to those of [compiler.js].

    JavaScript strings are modelled as [string] (a sequence of code units,
    here the units 0..255), arrays as lists, thrown exceptions as the
    [Throw] case of [outcome].  The text a macro writes is kept as text;
    for the bundled macros it is also kept as statements ([Code.stmt]) that
    print to that text and can be run. *)

From Stdlib Require Import String Ascii List Bool Arith ZArith Lia.
From Stdlib Require Import DecimalString DecimalNat DecimalFacts.
Import ListNotations.

Open Scope string_scope.
Open Scope list_scope.

(** JavaScript's [+] on strings. *)
Infix "+++" := String.append (right associativity, at level 60).

(* ================================================================= *)
(** ** Strings *)

Module Str.

Definition nl : string := String (ascii_of_nat 10) "".
Definition dquote : string := String (ascii_of_nat 34) "".
Definition squote : string := String (ascii_of_nat 39) "".
Definition backslash : string := String (ascii_of_nat 92) "".

Definition char (c : ascii) : string := String c "".

(** [a] occurs inside [b]. *)
Definition occurs_in (a b : string) : Prop :=
  exists pre post, b = pre +++ a +++ post.

End Str.

(* ================================================================= *)
(** ** Exceptions and results *)

(** What a call can end with.  [Error] is [new Error(message)], as thrown by
    [throwError]; [TypeError] is the engine's own exception for a property
    read on [undefined].  [Timeout] is not JavaScript: it is the recursion
    budget of the model of [transform] running out. *)
Inductive exn : Type :=
| Error (message : string)
| TypeError (message : string)
| ReferenceError (message : string).

Inductive outcome (A : Type) : Type :=
| Ok (a : A)
| Throw (e : exn)
| Timeout.
Arguments Ok {A} a.
Arguments Throw {A} e.
Arguments Timeout {A}.

Definition bind {A B} (m : outcome A) (k : A -> outcome B) : outcome B :=
  match m with
  | Ok a => k a
  | Throw e => Throw e
  | Timeout => Timeout
  end.

Notation "'let*' x ':=' m 'in' k" := (bind m (fun x => k))
  (at level 10, x pattern, m at level 100, k at level 200).

(* ================================================================= *)
(** ** The parse tree *)

(** An array as [parse] builds it holds strings and nested arrays. *)
Unset Elimination Schemes.
Inductive item : Type :=
| Str (s : string)
| Sub (t : list item).
Set Elimination Schemes.

Definition tree : Type := list item.

Section ItemInd.
Variable P : item -> Prop.
Hypothesis HStr : forall s, P (Str s).
Hypothesis HSub : forall t, Forall P t -> P (Sub t).

Fixpoint item_ind' (i : item) : P i :=
  match i with
  | Str s => HStr s
  | Sub t =>
      HSub t ((fix all (l : list item) : Forall P l :=
                 match l with
                 | [] => Forall_nil P
                 | x :: l' => Forall_cons x (item_ind' x) (all l')
                 end) t)
  end.
End ItemInd.

(** [String(x)] for an element of such an array: a nested array is joined
    with commas. *)
Fixpoint js_String (i : item) : string :=
  match i with
  | Str s => s
  | Sub t => String.concat "," (map js_String t)
  end.

(* ================================================================= *)
(** ** Options and [throwError] *)

(** A macro receives the node and the [transform] callback and returns the
    generated code.  The node is mutated in place by [parseArg]; the model
    passes the mutated node along and hands it back with the code. *)
Definition code : Type := string.
Definition callback : Type := tree -> outcome (code * tree).
Definition macro : Type := tree -> callback -> outcome (code * tree).

(** An object used as a name-to-macro table. *)
Definition registry : Type := list (string * macro).

Fixpoint lookup {A} (name : string) (tbl : list (string * A)) : option A :=
  match tbl with
  | [] => None
  | (k, v) :: tbl' => if String.eqb k name then Some v else lookup name tbl'
  end.

Record options : Type := mkOptions {
  macros : registry;              (* options.macros, {} when left out *)
  file : option string;           (* options.file *)
  includeRuntime : option bool    (* options.includeRuntime *)
}.

Definition no_options : options := mkOptions [] None None.

(** [message + undefined] reads "undefined". *)
Definition show_file (f : option string) : string :=
  match f with
  | Some name => name
  | None => "undefined"
  end.

Definition throwError {A} (message : string) (o : options) : outcome A :=
  Throw (Error (message +++ Str.nl +++ "File: " +++ show_file (file o))).

(* ================================================================= *)
(** ** [parse] *)

(** [current[current.length - 1] += ch].  The last slot of [current] is a
    string whenever [parse] gets here ([last_is_str] below); on an array
    [+=] would first turn the slot into a string. *)
Fixpoint add_to_last (current : tree) (ch : ascii) : tree :=
  match current with
  | [] => []
  | [x] => [Str (js_String x +++ Str.char ch)]
  | x :: rest => x :: add_to_last rest ch
  end.

(** The loop of [parse], from position [i] on.  [stack] has its top first.
    [stack.pop()] on an empty stack gives [undefined], and [parent.push]
    then throws. *)
Fixpoint parse_loop (str : string) (current : tree) (stack : list tree)
  : outcome (tree * list tree) :=
  match str with
  | EmptyString => Ok (current, stack)
  | String ch rest =>
      if Ascii.eqb ch "{" then
        parse_loop rest [Str ""] (current :: stack)
      else if Ascii.eqb ch "}" then
        match stack with
        | [] => Throw (TypeError "Cannot read property 'push' of undefined")
        | parent :: stack' =>
            parse_loop rest (parent ++ [Sub current; Str ""]) stack'
        end
      else
        parse_loop rest (add_to_last current ch) stack
  end.

(** [results] is the array [current] starts as; with an empty stack
    [current] is that array again. *)
Definition parse (str : string) (o : options) : outcome tree :=
  let* (current, stack) := parse_loop str [Str ""] [] in
  match stack with
  | [] => Ok current
  | _ :: _ => throwError "Unmatched curly bracket" o
  end.

(** *** Brace balance of a string *)

(** Nesting depth after reading [str] from depth [d]; [None] when a [}]
    comes with nothing open. *)
Fixpoint depth_after (str : string) (d : nat) : option nat :=
  match str with
  | EmptyString => Some d
  | String ch rest =>
      if Ascii.eqb ch "{" then depth_after rest (S d)
      else if Ascii.eqb ch "}" then
        match d with
        | O => None
        | S d' => depth_after rest d'
        end
      else depth_after rest d
  end.

Definition balanced (str : string) : Prop := depth_after str 0 = Some 0.
Definition unmatched_open (str : string) : Prop :=
  exists d, depth_after str 0 = Some (S d).
Definition extra_close (str : string) : Prop := depth_after str 0 = None.

(** *** Writing a tree back *)

Fixpoint unparse_item (i : item) : string :=
  match i with
  | Str s => s
  | Sub t => "{" +++ fold_right (fun x acc => unparse_item x +++ acc) "" t +++ "}"
  end.

Definition unparse (t : tree) : string :=
  fold_right (fun x acc => unparse_item x +++ acc) "" t.

(** The text read so far that lies before [current]: the open nodes on the
    stack, each followed by its [{]. *)
Fixpoint unparse_stack (stack : list tree) : string :=
  match stack with
  | [] => ""
  | parent :: below => unparse_stack below +++ unparse parent +++ "{"
  end.

Definition last_is_str (t : tree) : Prop :=
  exists front s, t = front ++ [Str s].

(* ================================================================= *)
(** ** [helper] *)

(** The class [\s] of a regular expression, on the code units 0..255: tab,
    line feed, vertical tab, form feed, carriage return, space and the
    no-break space. *)
Definition is_space (c : ascii) : bool :=
  let n := nat_of_ascii c in
  ((9 <=? n)%nat && (n <=? 13)%nat) || (n =? 32)%nat || (n =? 160)%nat.

(** The match of [/^\S+/]: the longest run of non-space characters at the
    start ([""] when [exec] gives [null]). *)
Fixpoint non_space_prefix (s : string) : string :=
  match s with
  | EmptyString => ""
  | String c rest => if is_space c then "" else String c (non_space_prefix rest)
  end.

(** [s.substr(n)]. *)
Fixpoint substr (s : string) (n : nat) {struct n} : string :=
  match n, s with
  | O, _ => s
  | S n', String _ rest => substr rest n'
  | S _, EmptyString => ""
  end.

(** [s.replace(/^\s+/, '')]. *)
Fixpoint drop_spaces (s : string) : string :=
  match s with
  | EmptyString => ""
  | String c rest => if is_space c then drop_spaces rest else s
  end.

(** The two lines of [parseArg] on the string [tree[0]]: the token, and
    what is left of the string. *)
Definition take_arg (s : string) : string * string :=
  let arg := non_space_prefix s in
  (arg, drop_spaces (substr s (String.length arg))).

(** [parseArg]: reads the first token of [tree[0]] and cuts it, with the
    white space after it, out of [tree[0]].  With no string in the first
    slot, [tree[0].substr] is not there to call. *)
Definition parseArg (t : tree) : outcome (string * tree) :=
  match t with
  | Str s :: rest => Ok (fst (take_arg s), Str (snd (take_arg s)) :: rest)
  | _ => Throw (TypeError "tree[0].substr is not a function")
  end.

(** [parsePath]: [parseArg(tree) || ''] is [parseArg(tree)]. *)
Definition parsePath (t : tree) : outcome (string * tree) := parseArg t.

(** [s.replace(/c/g, by)] for a one-character pattern. *)
Fixpoint replace_all (c : ascii) (by_ : string) (s : string) : string :=
  match s with
  | EmptyString => ""
  | String x rest =>
      (if Ascii.eqb x c then by_ else Str.char x) +++ replace_all c by_ rest
  end.

Definition escapeJS (s : string) : string :=
  replace_all (ascii_of_nat 10) (Str.backslash +++ "n")
    (replace_all (ascii_of_nat 39) (Str.backslash +++ Str.squote)
       (replace_all (ascii_of_nat 34) (Str.backslash +++ Str.dquote) s)).

Definition output (s : string) : code :=
  if String.eqb s "" then ""
  else "__out.push(" +++ Str.dquote +++ escapeJS s +++ Str.dquote +++ ");".

(** [transformTree]: [each] over the array, in index order; a string slot is
    output, a nested array goes to [transform], which trims it in place. *)
Fixpoint transformTree (t : tree) (transform : callback) : outcome (code * tree) :=
  match t with
  | [] => Ok ("", [])
  | Str s :: rest =>
      let* (out, rest') := transformTree rest transform in
      Ok (output s +++ out, Str s :: rest')
  | Sub child :: rest =>
      let* (c, child') := transform child in
      let* (out, rest') := transformTree rest transform in
      Ok (c +++ out, Sub child' :: rest')
  end.

Definition keepPath (c : code) : code :=
  "(function (path) {" +++ Str.nl +++ c +++ Str.nl +++ "}(path));".

(** [wrapTemplate] hands its text to [new Function('data', ...)]; the model
    returns that text, and leaves out that [new Function] throws on a text
    that is not a function body.  [runtimeCode] is the source text of the
    functions of [runtime.js], which the compiler reads with
    [fn.toString()]. *)
Definition wrapTemplate (runtimeSource : list string) (c : code) (o : options) : code :=
  let runtimeCode :=
    match includeRuntime o with
    | Some true | None => String.concat "" runtimeSource
    | Some false => ""
    end in
  "var path = " +++ Str.dquote +++ Str.dquote +++ ", __out = [];" +++ Str.nl +++
  " data = data || {};" +++ Str.nl +++
  runtimeCode +++
  c +++ Str.nl +++
  "return __out.join(" +++ Str.dquote +++ Str.dquote +++ ");".

(* ================================================================= *)
(** ** [nativeMacros] *)

Definition quoted (s : string) : string := Str.dquote +++ s +++ Str.dquote.

Definition macro_dot : macro := fun t _ =>
  let* (path, t) := parsePath t in
  Ok ("__out.push(resolve(addToPath(path, " +++ quoted path +++ "), data));", t).

Definition macro_arrow : macro := fun t transform =>
  let* (path, t) := parsePath t in
  let* (body, t) := transformTree t transform in
  Ok (keepPath ("path = addToPath(path, " +++ quoted path +++ ");" +++ Str.nl +++
                body +++ Str.nl), t).

Definition macro_has : macro := fun t transform =>
  let* (path, t) := parsePath t in
  let* (body, t) := transformTree t transform in
  Ok ("if (typeof resolve(addToPath(path, " +++ quoted path +++
      "), data) !== " +++ quoted "undefined" +++ ") {" +++ Str.nl +++
      body +++ Str.nl +++
      "}", t).

Definition macro_each : macro := fun t transform =>
  let* (path, t) := parsePath t in
  let* (body, t) := transformTree t transform in
  Ok (keepPath ("path = addToPath(path, " +++ quoted path +++ ");" +++ Str.nl +++
                "each(resolve(path, data), function (__itemPath) {" +++
                keepPath ("path = addToPath(path, __itemPath);" +++ body) +++ Str.nl +++
                "});"), t).

Definition macro_path : macro := fun t _ =>
  let* (path, t) := parsePath t in
  Ok ("__out.push(addToPath(path, " +++ quoted path +++ "));", t).

Definition macro_out : macro := fun t transform => transformTree t transform.

Definition nativeMacros : registry :=
  [ (".", macro_dot); ("->", macro_arrow); ("has", macro_has);
    ("each", macro_each); ("path", macro_path); ("out", macro_out) ].

(* ================================================================= *)
(** ** [compile] *)

(** [transform], the closure inside [compile].  [fuel] bounds the depth of
    the calls a macro makes back into [transform]. *)
Fixpoint transform (o : options) (fuel : nat) (t : tree) : outcome (code * tree) :=
  match fuel with
  | O => Timeout
  | S fuel' =>
      let* (macroName, t) := parseArg t in
      match lookup macroName (macros o) with
      | Some m => m t (transform o fuel')
      | None =>
          match lookup macroName nativeMacros with
          | Some m => m t (transform o fuel')
          | None => throwError ("Not a macro: " +++ quoted macroName) o
          end
      end
  end.

Definition compile (runtimeSource : list string) (fuel : nat)
  (input : string) (o : options) : outcome code :=
  let* t := parse ("out " +++ input) o in
  let* (c, _) := transform o fuel t in
  Ok (wrapTemplate runtimeSource c o).

(** *** The recursion budget *)

(** [r'] is the result [r], or [r] ran out of budget. *)
Definition refines {A} (r r' : outcome A) : Prop := r = Timeout \/ r = r'.

Definition callback_le (cb cb' : callback) : Prop :=
  forall t, refines (cb t) (cb' t).

(** A macro is a JavaScript function: it cannot tell that the model of
    [transform] it calls back has a budget.  With a callback that goes
    further it gives the same result, once it gives one. *)
Definition budget_blind (m : macro) : Prop :=
  forall cb cb' t, callback_le cb cb' -> refines (m t cb) (m t cb').

Definition budget_blind_registry (r : registry) : Prop :=
  Forall (fun entry => budget_blind (snd entry)) r.

(** *** The nodes of a tree and the nodes [transform] gets to *)

(** The macro name of a node: the first token of its first slot. *)
Definition macro_name (t : tree) : option string :=
  match t with
  | Str s :: _ => Some (fst (take_arg s))
  | _ => None
  end.

(** The macro names of all nodes of a tree, in document order. *)
Fixpoint names_in (i : item) : list string :=
  match i with
  | Str _ => []
  | Sub t =>
      match macro_name t with
      | Some name => [name]
      | None => []
      end ++ flat_map names_in t
  end.

Definition registered (o : options) (name : string) : bool :=
  match lookup name (macros o), lookup name nativeMacros with
  | None, None => false
  | _, _ => true
  end.

(** Some node of the tree has a name that is in neither table. *)
Definition has_unregistered_node (o : options) (t : tree) : bool :=
  existsb (fun name => negb (registered o name)) (names_in (Sub t)).

(** The first slot of the node has no character that is not white space. *)
Fixpoint blank (s : string) : bool :=
  match s with
  | EmptyString => true
  | String c rest => is_space c && blank rest
  end.

(** Some node of the tree has such a first slot. *)
Fixpoint has_blank_node (i : item) : bool :=
  match i with
  | Str _ => false
  | Sub t =>
      match t with
      | Str s :: _ => blank s
      | _ => false
      end || existsb has_blank_node t
  end.

(** [->], [has], [each] and [out] call [transformTree]; [.] and [path] do
    not look at what follows their argument. *)
Definition transforms_children (name : string) : bool :=
  existsb (String.eqb name) ["->"; "has"; "each"; "out"].

Definition ignores_children (name : string) : bool :=
  existsb (String.eqb name) ["."; "path"].

(** Going through the nodes in the order [transform] does, as far as the
    bundled macros lead: the name of the first node found in neither table,
    if the walk meets one before it meets a node of a caller's macro. *)
Inductive reach : Type :=
| AllKnown
| FirstUnknown (name : string)
| LeavesBundled.

Section Reach.
Variable o : options.

Fixpoint first_unknown (i : item) : reach :=
  match i with
  | Str _ => AllKnown
  | Sub (Str s :: rest) =>
      let name := fst (take_arg s) in
      match lookup name (macros o) with
      | Some _ => LeavesBundled
      | None =>
          if transforms_children name then
            (fix among (l : tree) : reach :=
               match l with
               | [] => AllKnown
               | x :: l' =>
                   match first_unknown x with
                   | AllKnown => among l'
                   | r => r
                   end
               end) rest
          else if ignores_children name then AllKnown
          else FirstUnknown name
      end
  | Sub _ => LeavesBundled
  end.

Fixpoint first_unknown_among (l : tree) : reach :=
  match l with
  | [] => AllKnown
  | x :: l' =>
      match first_unknown x with
      | AllKnown => first_unknown_among l'
      | r => r
      end
  end.
End Reach.

(** What [transform] throws for a name in neither table. *)
Definition not_a_macro (o : options) (name : string) : outcome (code * tree) :=
  throwError ("Not a macro: " +++ quoted name) o.

(** How a verdict of the walk reads as a result of [transform] or
    [transformTree]. *)
Definition agrees (o : options) (r : reach) (res : outcome (code * tree)) : Prop :=
  match r with
  | FirstUnknown name => res = not_a_macro o name
  | AllKnown => exists c t', res = Ok (c, t')
  | LeavesBundled => True
  end.

(** The nesting depth of a node. *)
Fixpoint height (i : item) : nat :=
  match i with
  | Str _ => 0
  | Sub t => S (fold_right (fun x acc => Nat.max (height x) acc) 0 t)
  end.

(* ================================================================= *)
(** ** Data values *)

(** The data a render function is given.  Numbers are the integers and NaN;
    an object has its own enumerable properties, in the order [for in]
    lists them, and the enumerable properties it inherits from its
    prototype chain.  The built-in members of [Object.prototype],
    [Array.prototype] and [String.prototype] are not data: a property of
    such a name ([hasOwnProperty], [constructor], ...) is outside the
    model. *)
Module Js.

Unset Elimination Schemes.
Inductive value : Type :=
| VUndef
| VNull
| VBool (b : bool)
| VNum (n : Z)
| VNaN
| VStr (s : string)
| VArr (elems : list value)
| VObj (own inherited : list (string * value)).
Set Elimination Schemes.

(** [!!v]. *)
Definition truthy (v : value) : bool :=
  match v with
  | VUndef | VNull | VNaN => false
  | VBool b => b
  | VNum n => negb (Z.eqb n 0)
  | VStr s => negb (String.eqb s "")
  | VArr _ | VObj _ _ => true
  end.

Definition string_of_nat (n : nat) : string :=
  DecimalString.NilZero.string_of_uint (Nat.to_uint n).

Definition string_of_Z (n : Z) : string :=
  DecimalString.NilZero.string_of_int (Z.to_int n).

(** [String(v)]; inside [join], [undefined] and [null] read as [""]. *)
Fixpoint to_string (v : value) : string :=
  match v with
  | VUndef => "undefined"
  | VNull => "null"
  | VBool true => "true"
  | VBool false => "false"
  | VNum n => string_of_Z n
  | VNaN => "NaN"
  | VStr s => s
  | VArr elems =>
      String.concat ","
        (map (fun e => match e with
                       | VUndef | VNull => ""
                       | _ => to_string e
                       end) elems)
  | VObj _ _ => "[object Object]"
  end.

Definition join_elem (v : value) : string :=
  match v with
  | VUndef | VNull => ""
  | _ => to_string v
  end.

(** [a + b]: text when an operand is a string or turns into one, a sum
    otherwise. *)
Definition to_number (v : value) : option Z :=
  match v with
  | VNum n => Some n
  | VBool true => Some 1%Z
  | VBool false | VNull => Some 0%Z
  | _ => None
  end.

Definition plus (a b : value) : value :=
  let textual v := match v with VStr _ | VArr _ | VObj _ _ => true | _ => false end in
  if textual a || textual b then VStr (to_string a +++ to_string b)
  else
    match to_number a, to_number b with
    | Some x, Some y => VNum (x + y)
    | _, _ => VNaN
    end.

(** [arr.join(sep)]. *)
Definition join (sep : string) (arr : list value) : string :=
  String.concat sep (map join_elem arr).

(** The index that the property name [key] denotes in a sequence of [len]
    elements. *)
Definition index_of_key (key : string) (len : nat) : option nat :=
  find (fun i => String.eqb (string_of_nat i) key) (seq 0 len).

Fixpoint chars (s : string) : list value :=
  match s with
  | EmptyString => []
  | String c rest => VStr (Str.char c) :: chars rest
  end.

Definition elem_or_length (key : string) (elems : list value) : value :=
  match index_of_key key (List.length elems) with
  | Some i => nth i elems VUndef
  | None =>
      if String.eqb key "length" then VNum (Z.of_nat (List.length elems))
      else VUndef
  end.

(** [obj[key]].  Reading a property of [undefined] or [null] throws. *)
Definition get (obj : value) (key : string) : outcome value :=
  match obj with
  | VUndef | VNull =>
      Throw (TypeError ("Cannot read property '" +++ key +++ "' of " +++ to_string obj))
  | VBool _ | VNum _ | VNaN => Ok VUndef
  | VStr s => Ok (elem_or_length key (chars s))
  | VArr elems => Ok (elem_or_length key elems)
  | VObj own inherited =>
      match lookup key own with
      | Some v => Ok v
      | None =>
          match lookup key inherited with
          | Some v => Ok v
          | None => Ok VUndef
          end
      end
  end.

Definition keys (props : list (string * value)) : list string :=
  nodup string_dec (map fst props).

Definition mem (key : string) (l : list string) : bool :=
  existsb (String.eqb key) l.

(** The keys [for (var key in obj)] goes through: own enumerable ones, then
    inherited enumerable ones that no own property hides. *)
Definition for_in_keys (obj : value) : list string :=
  match obj with
  | VObj own inherited =>
      keys own ++ filter (fun k => negb (mem k (keys own))) (keys inherited)
  | VStr s => map string_of_nat (seq 0 (String.length s))
  | VArr elems => map string_of_nat (seq 0 (List.length elems))
  | _ => []
  end.

(** [obj.hasOwnProperty(key)]. *)
Definition hasOwnProperty (obj : value) (key : string) : bool :=
  match obj with
  | VObj own _ => mem key (keys own)
  | VStr s =>
      match index_of_key key (String.length s) with
      | Some _ => true
      | None => String.eqb key "length"
      end
  | VArr elems =>
      match index_of_key key (List.length elems) with
      | Some _ => true
      | None => String.eqb key "length"
      end
  | _ => false
  end.

End Js.

(* ================================================================= *)
(** ** The runtime of the bundled build: [resolve] and [each] *)

Module Runtime.
Import Js.

(** [path.split(/\./)]. *)
Fixpoint split_dots (acc : string) (s : string) : list string :=
  match s with
  | EmptyString => [acc]
  | String c rest =>
      if Ascii.eqb c "." then acc :: split_dots "" rest
      else split_dots (acc +++ Str.char c) rest
  end.

Definition parts_of (path : string) : list string :=
  filter (fun part => negb (String.eqb part "")) (split_dots "" path).

(** The [while] loop of [resolve] and the two [return]s after it: a step is
    taken while [obj[parts[0]]] is truthy; parts left over give
    [undefined]. *)
Fixpoint resolve_loop (obj : value) (parts : list string) : outcome value :=
  match parts with
  | [] => Ok obj
  | part :: parts' =>
      let* next := get obj part in
      if truthy next then resolve_loop next parts' else Ok VUndef
  end.

(** [resolve(path)], with the [data] it closes over as an argument. *)
Definition resolve (data : value) (path : string) : outcome value :=
  resolve_loop data (parts_of path).

(** A loop body run once per element of [l], in order, until one throws. *)
Fixpoint for_each {A S} (l : list A) (body : A -> S -> outcome S) (s : S) : outcome S :=
  match l with
  | [] => Ok s
  | x :: l' => let* s' := body x s in for_each l' body s'
  end.

(** [each(obj, iterator)].  The iterator acts on a state [S] of its own. *)
Definition each {S} (obj : value) (iterator : value -> value -> S -> outcome S)
  (s : S) : outcome S :=
  if negb (truthy obj) then Ok s
  else
    match obj with
    | VArr elems =>
        for_each (seq 0 (List.length elems))
          (fun i => iterator (VNum (Z.of_nat i)) (nth i elems VUndef)) s
    | _ =>
        for_each (for_in_keys obj)
          (fun key s =>
             if hasOwnProperty obj key then
               let* item := get obj key in iterator (VStr key) item s
             else Ok s) s
    end.

(** *** What [each] is to visit *)

(** The entries the description of [each] names, as pairs of the two
    arguments of the iterator: nothing for a falsy value; the indices
    [0..length-1] of an array, in order, with the elements; otherwise the
    own enumerable keys with the own values. *)
Definition own_value (own : list (string * value)) (key : string) : value :=
  match lookup key own with
  | Some v => v
  | None => VUndef
  end.

Definition entries (obj : value) : list (value * value) :=
  match obj with
  | VArr elems =>
      map (fun i => (VNum (Z.of_nat i), nth i elems VUndef))
        (seq 0 (List.length elems))
  | VObj own _ => map (fun key => (VStr key, own_value own key)) (keys own)
  | VStr s =>
      map (fun i => (VStr (string_of_nat i), nth i (chars s) VUndef))
        (seq 0 (String.length s))
  | _ => []
  end.

Definition visited (obj : value) : list (value * value) :=
  if truthy obj then entries obj else [].

End Runtime.

(* ================================================================= *)
(** ** The generated code *)

(** The statements that [output] and the bundled macros write, as syntax;
    [print] gives their text back and [exec] runs them.  A [Lit] stands for
    the token between its quotes and a [PushText] for the text it was made
    from, which holds for text without quote, backslash or line break in
    the first case and without backslash or carriage return in the
    second. *)
Module Code.
Import Js.

Inductive expr : Type :=
| Path                          (* path *)
| ItemPath                      (* __itemPath *)
| Lit (s : string)              (* "s" *)
| AddToPath (a b : expr)        (* addToPath(a, b) *)
| Resolve (e : expr)            (* resolve(e, data) *)
| Plus (a b : expr)             (* a + b, the bundled build *)
| Resolve1 (e : expr).          (* resolve(e), the bundled build *)

Unset Elimination Schemes.
Inductive stmt : Type :=
| PushText (s : string)         (* __out.push("s"); *)
| Push (e : expr)               (* __out.push(e); *)
| Assign (e : expr)             (* path = e; *)
| Newline                       (* a line break between statements *)
| Scope (body : list stmt)      (* (function (path) { body }(path)); *)
| IfDefined (e : expr) (body : list stmt)
                                (* if (typeof e !== "undefined") { body } *)
| Each (e : expr) (body : list stmt).
                                (* each(e, function (__itemPath) { body }); *)
Set Elimination Schemes.

Definition block : Type := list stmt.

Section StmtInd.
Variable P : stmt -> Prop.
Hypothesis HPushText : forall s, P (PushText s).
Hypothesis HPush : forall e, P (Push e).
Hypothesis HAssign : forall e, P (Assign e).
Hypothesis HNewline : P Newline.
Hypothesis HScope : forall body, Forall P body -> P (Scope body).
Hypothesis HIf : forall e body, Forall P body -> P (IfDefined e body).
Hypothesis HEach : forall e body, Forall P body -> P (Each e body).

Fixpoint stmt_ind' (s : stmt) : P s :=
  let all := fix all (l : list stmt) : Forall P l :=
    match l with
    | [] => Forall_nil P
    | x :: l' => Forall_cons x (stmt_ind' x) (all l')
    end in
  match s with
  | PushText s => HPushText s
  | Push e => HPush e
  | Assign e => HAssign e
  | Newline => HNewline
  | Scope body => HScope body (all body)
  | IfDefined e body => HIf e body (all body)
  | Each e body => HEach e body (all body)
  end.
End StmtInd.

(** *** The text of a statement *)

Fixpoint print_expr (e : expr) : string :=
  match e with
  | Path => "path"
  | ItemPath => "__itemPath"
  | Lit s => quoted s
  | AddToPath a b => "addToPath(" +++ print_expr a +++ ", " +++ print_expr b +++ ")"
  | Resolve e => "resolve(" +++ print_expr e +++ ", data)"
  | Plus a b => print_expr a +++ " + " +++ print_expr b
  | Resolve1 e => "resolve(" +++ print_expr e +++ ")"
  end.

Fixpoint print_stmt (s : stmt) : string :=
  let print_block := fix print_block (l : list stmt) : string :=
    match l with
    | [] => ""
    | x :: l' => print_stmt x +++ print_block l'
    end in
  match s with
  | PushText s => output s
  | Push e => "__out.push(" +++ print_expr e +++ ");"
  | Assign e => "path = " +++ print_expr e +++ ";"
  | Newline => Str.nl
  | Scope body => keepPath (print_block body)
  | IfDefined e body =>
      "if (typeof " +++ print_expr e +++ " !== " +++ quoted "undefined" +++ ") {" +++
      Str.nl +++ print_block body +++ Str.nl +++ "}"
  | Each e body =>
      "each(" +++ print_expr e +++ ", function (__itemPath) {" +++
      print_block body +++ Str.nl +++ "});"
  end.

Fixpoint print (l : block) : string :=
  match l with
  | [] => ""
  | x :: l' => print_stmt x +++ print l'
  end.

(** *** Running a statement *)

(** The variables of a render function: [data], [path] and the array
    [__out]. *)
Record state : Type := mkState {
  st_data : value;
  st_path : value;
  st_out : list value
}.

Definition push (v : value) (st : state) : state :=
  mkState (st_data st) (st_path st) (st_out st ++ [v]).

Definition set_path (v : value) (st : state) : state :=
  mkState (st_data st) v (st_out st).

(** The function [new Function('data', ...)] makes, whatever the code
    between its first two lines and its last: [var path = "", __out = [];
    data = data || {};] then the code, then [return __out.join("")]. *)
Definition call (body : state -> outcome state) (arg : value) : outcome string :=
  let data := if truthy arg then arg else VObj [] [] in
  let* st := body (mkState data (VStr "") []) in
  Ok (join "" (st_out st)).

Section Exec.
(** The functions of [runtime.js] that the generated code calls:
    [addToPath(a, b)] and [resolve(path, data)]. *)
Variable addToPath : value -> value -> outcome value.
Variable resolve : value -> value -> outcome value.

(** [item] is the parameter [__itemPath] of the closest enclosing
    iterator function, if there is one. *)
Fixpoint eval (e : expr) (item : option value) (st : state) : outcome value :=
  match e with
  | Path => Ok (st_path st)
  | ItemPath =>
      match item with
      | Some v => Ok v
      | None => Throw (ReferenceError "__itemPath is not defined")
      end
  | Lit s => Ok (VStr s)
  | AddToPath a b =>
      let* va := eval a item st in
      let* vb := eval b item st in
      addToPath va vb
  | Resolve e =>
      let* p := eval e item st in
      resolve p (st_data st)
  | Plus a b =>
      let* va := eval a item st in
      let* vb := eval b item st in
      Ok (plus va vb)
  | Resolve1 e =>
      let* p := eval e item st in
      match p with
      | VStr p => Runtime.resolve (st_data st) p
      | _ => Throw (TypeError "path.split is not a function")
      end
  end.

(** [Scope] is a function with a parameter [path] of its own, called at
    once with the outer [path]: its body writes the inner variable, and
    shares [__out] and [data].  The iterator of [Each] is a closure: it
    writes the variables of the place it stands in; [each] itself is
    [Runtime.each], the function [transformTree] calls as well. *)
Fixpoint exec (s : stmt) (item : option value) (st : state) : outcome state :=
  let exec_block := fix exec_block (l : list stmt) (item : option value)
                          (st : state) : outcome state :=
    match l with
    | [] => Ok st
    | x :: l' => let* st' := exec x item st in exec_block l' item st'
    end in
  match s with
  | PushText s => Ok (if String.eqb s "" then st else push (VStr s) st)
  | Push e => let* v := eval e item st in Ok (push v st)
  | Assign e => let* v := eval e item st in Ok (set_path v st)
  | Newline => Ok st
  | Scope body =>
      let* inner := exec_block body item st in
      Ok (mkState (st_data inner) (st_path st) (st_out inner))
  | IfDefined e body =>
      let* v := eval e item st in
      match v with
      | VUndef => Ok st
      | _ => exec_block body item st
      end
  | Each e body =>
      let* v := eval e item st in
      Runtime.each v (fun key _ st' => exec_block body (Some key) st') st
  end.

Fixpoint exec_block (l : block) (item : option value) (st : state) : outcome state :=
  match l with
  | [] => Ok st
  | x :: l' => let* st' := exec x item st in exec_block l' item st'
  end.

(** The function [wrapTemplate] builds, called with [arg]. *)
Definition run (body : block) (arg : value) : outcome string :=
  call (exec_block body None) arg.
End Exec.

End Code.

(* ================================================================= *)
(** ** The bundled macros as syntax *)

Module Gen.
Import Js Code.

(** What tells the macros of [compiler.js] from those of the bundled build
    ([richardparker/index.js] inside the build file): the normal form
    [parsePath] gives a token, the statements each macro writes, and the
    message for an unknown macro. *)
Record dialect : Type := mkDialect {
  d_parsePath : string -> string;
  d_dot : string -> block;
  d_arrow : string -> block -> block;
  d_has : string -> block -> block;
  d_each : string -> block -> block;
  d_path : string -> block;
  d_unknown : string -> options -> exn
}.

(** [compiler.js]. *)
Definition current : dialect := {|
  d_parsePath := fun p => p;
  d_dot := fun p => [Push (Resolve (AddToPath Path (Lit p)))];
  d_arrow := fun p body =>
    [Scope ([Assign (AddToPath Path (Lit p)); Newline] ++ body ++ [Newline])];
  d_has := fun p body => [IfDefined (Resolve (AddToPath Path (Lit p))) body];
  d_each := fun p body =>
    [Scope [Assign (AddToPath Path (Lit p)); Newline;
            Each (Resolve Path) [Scope (Assign (AddToPath Path ItemPath) :: body)]]];
  d_path := fun p => [Push (AddToPath Path (Lit p))];
  d_unknown := fun name o =>
    Error (("Not a macro: " +++ quoted name) +++ Str.nl +++ "File: " +++ show_file (file o))
|}.

Section Generate.
Variable d : dialect.
Variable o : options.

(** The node [Sub t] goes through [transform]: the macro name is cut from
    its first slot, the macros that take a path cut that as well, and the
    slots are then gone through as [transformTree] does. *)
Fixpoint gen_item (i : item) : outcome block :=
  match i with
  | Str s => Ok [PushText s]
  | Sub (Str s :: rest) =>
      let children := fix children (l : tree) : outcome block :=
        match l with
        | [] => Ok []
        | x :: l' =>
            let* c := gen_item x in
            let* cs := children l' in
            Ok (c ++ cs)
        end in
      let macroName := fst (take_arg s) in
      let lead := snd (take_arg s) in
      let path := d_parsePath d (fst (take_arg lead)) in
      let body :=
        let* cs := children rest in Ok (PushText (snd (take_arg lead)) :: cs) in
      if String.eqb macroName "." then Ok (d_dot d path)
      else if String.eqb macroName "->" then let* b := body in Ok (d_arrow d path b)
      else if String.eqb macroName "has" then let* b := body in Ok (d_has d path b)
      else if String.eqb macroName "each" then let* b := body in Ok (d_each d path b)
      else if String.eqb macroName "path" then Ok (d_path d path)
      else if String.eqb macroName "out" then
        let* cs := children rest in Ok (PushText lead :: cs)
      else Throw (d_unknown d macroName o)
  | Sub _ => Throw (TypeError "tree[0].substr is not a function")
  end.

Fixpoint gen_children (l : tree) : outcome block :=
  match l with
  | [] => Ok []
  | x :: l' =>
      let* c := gen_item x in
      let* cs := gen_children l' in
      Ok (c ++ cs)
  end.

Definition gen (t : tree) : outcome block := gen_item (Sub t).
End Generate.

(** [render(str, data, options)] for a template that uses the bundled
    macros only. *)
Definition render (addToPath resolve : value -> value -> outcome value)
  (str : string) (data : value) (o : options) : outcome string :=
  let* t := parse ("out " +++ str) o in
  let* body := gen current o t in
  run addToPath resolve body data.

End Gen.

(** The text of a result of [transform] or [transformTree] is the text of
    the statements [gen] gives, and the two throw alike. *)
Definition printed (res : outcome (code * tree)) (stmts : outcome Code.block) : Prop :=
  match stmts with
  | Ok b => exists t', res = Ok (Code.print b, t')
  | Throw e => res = Throw e
  | Timeout => False
  end.

(* ================================================================= *)
(** ** A runtime to run the statements of [compiler.js] with *)

(** [runtime.js] is not part of the sources.  Where an example needs an
    [addToPath] and a two-argument [resolve], these are used: paths are
    joined with a dot and resolved as the bundled build does. *)
Module Sample.
Import Js.

Definition addToPath (a b : value) : outcome value :=
  Ok (plus a (plus (VStr ".") b)).

Definition resolve (path data : value) : outcome value :=
  match path with
  | VStr p => Runtime.resolve data p
  | _ => Throw (TypeError "path.split is not a function")
  end.

End Sample.

(* ================================================================= *)
(** ** The bundled build *)

(** [richardparker/index.js] as registered in the build file: the runtime
    functions are [Runtime.resolve] and [Runtime.each]; the macros write
    [path + "..."] where [compiler.js] writes [addToPath(path, "...")]. *)
Module Bundle.
Import Js Code Gen.

(** [.replace(/(\["?|"?])/g, '.')]. *)
Fixpoint dots_for_brackets (s : string) : string :=
  match s with
  | EmptyString => ""
  | String c rest =>
      if Ascii.eqb c "["%char then
        match rest with
        | String q rest' =>
            if Ascii.eqb q (ascii_of_nat 34) then "." +++ dots_for_brackets rest'
            else "." +++ dots_for_brackets rest
        | EmptyString => "."
        end
      else if Ascii.eqb c "]"%char then "." +++ dots_for_brackets rest
      else if Ascii.eqb c (ascii_of_nat 34) then
        match rest with
        | String b rest' =>
            if Ascii.eqb b "]"%char then "." +++ dots_for_brackets rest'
            else String c (dots_for_brackets rest)
        | EmptyString => String c ""
        end
      else String c (dots_for_brackets rest)
  end.

(** [.replace(/^(?=[^\.])/g, '.')]. *)
Definition dot_in_front (s : string) : string :=
  match s with
  | EmptyString => ""
  | String c _ => if Ascii.eqb c "."%char then s else "." +++ s
  end.

(** [.replace(/\.$/g, '')]. *)
Fixpoint no_dot_at_end (s : string) : string :=
  match s with
  | EmptyString => ""
  | String c EmptyString => if Ascii.eqb c "."%char then "" else s
  | String c rest => String c (no_dot_at_end rest)
  end.

Definition normal_path (arg : string) : string :=
  no_dot_at_end (dot_in_front (dots_for_brackets arg)).

Definition parsePath (t : tree) : outcome (string * tree) :=
  let* (arg, t) := parseArg t in Ok (normal_path arg, t).

(** The macros of the bundled build.  It writes [path += e], which is
    [path = path + e], and quotes the argument of [->] through [escapeJS]. *)
Definition bundled : dialect := {|
  d_parsePath := normal_path;
  d_dot := fun p => [Push (Resolve1 (Plus Path (Lit p)))];
  d_arrow := fun p body =>
    [Scope ([Assign (Plus Path (Lit p)); Newline] ++ body ++ [Newline])];
  d_has := fun p body => [IfDefined (Resolve1 (Plus Path (Lit p))) body];
  d_each := fun p body =>
    [Scope [Assign (Plus Path (Lit p)); Newline;
            Each (Resolve1 (Lit p))
              [Scope (Assign (Plus Path (Plus (Lit ".") ItemPath)) :: body)]]];
  d_path := fun p => [Push (Plus Path (Lit p))];
  d_unknown := fun name _ => Error ("Not a macro:" +++ name)
|}.

Definition parse (str : string) : outcome tree :=
  let* (current, stack) := parse_loop str [Str ""] [] in
  match stack with
  | [] => Ok current
  | _ :: _ => Throw (Error "Unmatched brace")
  end.

(** The bundled build has no [addToPath] and no two-argument [resolve]. *)
Definition absent (name : string) : value -> value -> outcome value :=
  fun _ _ => Throw (ReferenceError (name +++ " is not defined")).

Definition run (body : block) (arg : value) : outcome string :=
  Code.run (absent "addToPath") (absent "resolve") body arg.

(** [render(str, data)] for a template that uses the bundled macros only. *)
Definition render (str : string) (data : value) : outcome string :=
  let* t := parse ("out " +++ str) in
  let* body := gen bundled no_options t in
  run body data.

End Bundle.

(* ================================================================= *)
(** ** Further notions used in the properties below *)

(** *** The shape of an array of [parse] *)

(** The slots after the first one of a node: nested arrays, each followed
    by a string. *)
Fixpoint well_formed (i : item) : bool :=
  match i with
  | Str _ => false
  | Sub (Str _ :: rest) =>
      (fix pairs (l : tree) : bool :=
         match l with
         | [] => true
         | x :: Str _ :: l' =>
             match x with
             | Sub _ => well_formed x && pairs l'
             | Str _ => false
             end
         | _ => false
         end) rest
  | Sub _ => false
  end.

Fixpoint well_formed_pairs (l : tree) : bool :=
  match l with
  | [] => true
  | x :: Str _ :: l' =>
      match x with
      | Sub _ => well_formed x && well_formed_pairs l'
      | Str _ => false
      end
  | _ => false
  end.

(** A slot of an array of [parse]: a string, or a nested array of that
    shape. *)
Definition is_text_or_node (x : item) : Prop :=
  match x with
  | Str _ => True
  | Sub _ => well_formed x = true
  end.

(** The text has neither [{] nor [}]. *)
Fixpoint brace_free (s : string) : bool :=
  match s with
  | EmptyString => true
  | String c rest =>
      negb (Ascii.eqb c "{") && negb (Ascii.eqb c "}") && brace_free rest
  end.

(** No string slot of the tree has a brace in it. *)
Fixpoint slots_brace_free (i : item) : bool :=
  match i with
  | Str s => brace_free s
  | Sub t => forallb slots_brace_free t
  end.

(** *** The text between the quotes of a string literal *)

(** What [escapeJS] puts for one character. *)
Definition escape_char (c : ascii) : string :=
  if Ascii.eqb c (ascii_of_nat 34) then Str.backslash +++ Str.dquote
  else if Ascii.eqb c (ascii_of_nat 39) then Str.backslash +++ Str.squote
  else if Ascii.eqb c (ascii_of_nat 10) then Str.backslash +++ "n"
  else Str.char c.

Fixpoint has_char (c : ascii) (s : string) : bool :=
  match s with
  | EmptyString => false
  | String x rest => Ascii.eqb x c || has_char c rest
  end.

(** Read from left to right, a backslash taking the character after it
    with it, the text has no quote and no line feed of its own, and no
    backslash is left alone at the end: between two quotes it is one string
    literal, closed by the second quote. *)
Fixpoint literal_body (s : string) : bool :=
  match s with
  | EmptyString => true
  | String c rest =>
      if Ascii.eqb c (ascii_of_nat 92) then
        match rest with
        | EmptyString => false
        | String _ rest' => literal_body rest'
        end
      else
        negb (Ascii.eqb c (ascii_of_nat 34)) &&
        negb (Ascii.eqb c (ascii_of_nat 39)) &&
        negb (Ascii.eqb c (ascii_of_nat 10)) &&
        literal_body rest
  end.

(** [escapeJS] done in one pass, character by character. *)
Fixpoint escape_each (s : string) : string :=
  match s with
  | EmptyString => ""
  | String c rest => escape_char c +++ escape_each rest
  end.

(** How many characters of the text [escapeJS] puts a backslash before. *)
Fixpoint escaped_count (s : string) : nat :=
  match s with
  | EmptyString => 0
  | String c rest =>
      (if Ascii.eqb c (ascii_of_nat 34) || Ascii.eqb c (ascii_of_nat 39) ||
          Ascii.eqb c (ascii_of_nat 10)
       then 1 else 0) + escaped_count rest
  end.

(** No character of the text is white space. *)
Fixpoint no_space (s : string) : bool :=
  match s with
  | EmptyString => true
  | String c rest => negb (is_space c) && no_space rest
  end.

(** The text is made of dots only. *)
Fixpoint dots_only (s : string) : bool :=
  match s with
  | EmptyString => true
  | String c rest => Ascii.eqb c "." && dots_only rest
  end.

Definition starts_with_dot (s : string) : bool :=
  match s with
  | String c _ => Ascii.eqb c "."
  | EmptyString => false
  end.

(** The token has no bracket and no double quote. *)
Fixpoint plain_path (s : string) : bool :=
  match s with
  | EmptyString => true
  | String c rest =>
      negb (Ascii.eqb c "[") && negb (Ascii.eqb c "]") &&
      negb (Ascii.eqb c (ascii_of_nat 34)) && plain_path rest
  end.

(* ================================================================= *)
(** ** The module loader of the build file *)

(** [require.resolve], [require.normalize], [require.register],
    [require.alias] and, inside [require.relative], [lastIndexOf] and
    [localRequire.resolve].  [require.modules] and [require.aliases] are
    objects used as tables from paths; what is registered under a path is
    a function, which the functions modelled here never call. *)
Module Require.

Section Loader.
Variable definition : Type.

Record tables : Type := mkTables {
  modules : list (string * definition);
  aliases : list (string * string)
}.

(** [has.call(table, key)]. *)
Definition has {A} (tbl : list (string * A)) (key : string) : bool :=
  match lookup key tbl with
  | Some _ => true
  | None => false
  end.

(** [s.charAt(0)]. *)
Definition charAt0 (s : string) : string :=
  match s with
  | EmptyString => ""
  | String c _ => Str.char c
  end.

(** [s.slice(1)]. *)
Definition slice1 (s : string) : string :=
  match s with
  | EmptyString => ""
  | String _ rest => rest
  end.

(** [s.split('/')]. *)
Fixpoint split_slash (acc : string) (s : string) : list string :=
  match s with
  | EmptyString => [acc]
  | String c rest =>
      if Ascii.eqb c "/" then acc :: split_slash "" rest
      else split_slash (acc +++ Str.char c) rest
  end.

Definition split (s : string) : list string := split_slash "" s.

(** [arr.join('/')]. *)
Definition join (arr : list string) : string := String.concat "/" arr.

(** [require.resolve]: the path itself, then with [.js], [.json],
    [/index.js] and [/index.json] after it, the first that is registered;
    failing these, the alias of the [/index.js] form; failing that,
    [undefined]. *)
Definition resolve (t : tables) (path : string) : option string :=
  let path := if String.eqb (charAt0 path) "/" then slice1 path else path in
  let index := path +++ "/index.js" in
  let paths := [path; path +++ ".js"; path +++ ".json";
                path +++ "/index.js"; path +++ "/index.json"] in
  match find (has (modules t)) paths with
  | Some found => Some found
  | None => lookup index (aliases t)
  end.

(** The loop of [require.normalize]: [..] takes the last segment of [curr]
    away, [.] and the empty segment are passed over, any other segment is
    kept. *)
Fixpoint normalize_loop (path curr segs : list string) : list string * list string :=
  match path with
  | [] => (curr, segs)
  | seg :: path' =>
      if String.eqb ".." seg then normalize_loop path' (removelast curr) segs
      else if negb (String.eqb "." seg) && negb (String.eqb "" seg) then
        normalize_loop path' curr (segs ++ [seg])
      else normalize_loop path' curr segs
  end.

Definition normalize (curr path : string) : string :=
  if negb (String.eqb "." (charAt0 path)) then path
  else
    let (curr', segs) := normalize_loop (split path) (split curr) [] in
    join (curr' ++ segs).

(** [require.register]: [require.modules[path] = definition]. *)
Definition register (t : tables) (path : string) (d : definition) : tables :=
  mkTables ((path, d) :: modules t) (aliases t).

(** [require.alias]. *)
Definition alias (t : tables) (from to : string) : outcome tables :=
  if negb (has (modules t) from) then
    Throw (Error ("Failed to alias " +++ quoted from +++ ", it does not exist"))
  else Ok (mkTables (modules t) ((to, from) :: aliases t)).

End Loader.

Arguments mkTables {definition} modules aliases.
Arguments modules {definition} t.
Arguments aliases {definition} t.
Arguments resolve {definition} t path.
Arguments register {definition} t path d.
Arguments alias {definition} t from to.

(** [lastIndexOf]: [i] counts down from the length; [-1] when nothing is
    found. *)
Fixpoint lastIndexOf_from (arr : list string) (obj : string) (i : nat) : Z :=
  match i with
  | O => (-1)%Z
  | S i' =>
      if String.eqb (nth i' arr "") obj then Z.of_nat i'
      else lastIndexOf_from arr obj i'
  end.

Definition lastIndexOf (arr : list string) (obj : string) : Z :=
  lastIndexOf_from arr obj (List.length arr).

(** [localRequire.resolve] of [require.relative(parent)]. *)
Definition relative_resolve (parent path : string) : string :=
  let p := normalize parent ".." in
  let c := charAt0 path in
  if String.eqb "/" c then slice1 path
  else if String.eqb "." c then normalize p path
  else
    let segs := split parent in
    let i := (lastIndexOf segs "deps" + 1)%Z in
    join (firstn (Z.to_nat (i + 1)) segs) +++ "/deps/" +++ path.

End Require.

(* ================================================================= *)
(** ** States of a render function *)

Definition omap {A B} (f : A -> B) (m : outcome A) : outcome B :=
  let* a := m in Ok (f a).

(** The state with [pre] pushed on [__out] before everything else. *)
Definition prefix_out (pre : list Js.value) (st : Code.state) : Code.state :=
  Code.mkState (Code.st_data st) (Code.st_path st) (pre ++ Code.st_out st).

(** The states a render function of the bundled build is in: [data] is
    truthy, as after [data = data || {}], and [path] is a string. *)
Definition good (st : Code.state) : Prop :=
  Js.truthy (Code.st_data st) = true /\ exists p, Code.st_path st = Js.VStr p.

(** From a state of that kind the statements run to their end, inside an
    iterator or outside, and leave such a state. *)
Definition runs (addToPath resolve : Js.value -> Js.value -> outcome Js.value)
  (b : Code.block) : Prop :=
  forall item st, good st ->
    exists st', Code.exec_block addToPath resolve b item st = Ok st' /\ good st'.
(* ================================================================= *)
(** * Properties *)

(** ** Strings *)

Module StrFacts.

Lemma app_nil_r (s : string) : s +++ "" = s.
Proof. induction s as [|c s IH]; simpl; [reflexivity | now rewrite IH]. Qed.

Lemma app_assoc (a b c : string) : (a +++ b) +++ c = a +++ b +++ c.
Proof. induction a as [|x a IH]; simpl; [reflexivity | now rewrite IH]. Qed.

End StrFacts.

(** Brings both sides of an equation between texts to one shape. *)
Ltac str_norm :=
  repeat progress (rewrite ?StrFacts.app_assoc, ?StrFacts.app_nil_r; simpl).

(* ================================================================= *)
(** ** [parse] *)

Section ParseFacts.

Lemma unparse_app (a b : tree) : unparse (a ++ b) = unparse a +++ unparse b.
Proof.
unfold unparse. induction a as [|x a IH]; simpl.
- reflexivity.
- now rewrite IH, StrFacts.app_assoc.
Qed.

Lemma last_is_str_single (s : string) : last_is_str [Str s].
Proof. now exists [], s. Qed.

Lemma last_is_str_closed (parent current : tree) :
last_is_str (parent ++ [Sub current; Str ""]).
Proof.
exists (parent ++ [Sub current]), "".
now rewrite <- app_assoc.
Qed.

Lemma add_to_last_snoc (front : tree) (x : item) (ch : ascii) :
add_to_last (front ++ [x]) ch = front ++ [Str (js_String x +++ Str.char ch)].
Proof.
induction front as [|y front IH]; simpl; [reflexivity|].
rewrite IH. destruct front; reflexivity.
Qed.

Lemma add_to_last_str (current : tree) (ch : ascii) :
last_is_str current ->
last_is_str (add_to_last current ch) /\
unparse (add_to_last current ch) = unparse current +++ Str.char ch.
Proof.
intros (front & s & ->). rewrite add_to_last_snoc. split.
- exists front, (s +++ Str.char ch). reflexivity.
- rewrite !unparse_app. unfold unparse; simpl.
  now rewrite !StrFacts.app_nil_r, !StrFacts.app_assoc.
Qed.

(** What the loop does, by the nesting depth of what is left to read: a
  [}] with nothing open ends it in the engine's exception; otherwise it
  ends with as many open nodes as the depth says, and no character is
  lost. *)
Lemma parse_loop_spec (str : string) :
forall current stack,
  last_is_str current ->
  match depth_after str (List.length stack) with
  | None =>
      parse_loop str current stack =
      Throw (TypeError "Cannot read property 'push' of undefined")
  | Some d =>
      exists current' stack',
        parse_loop str current stack = Ok (current', stack') /\
        List.length stack' = d /\
        last_is_str current' /\
        unparse_stack stack' +++ unparse current' =
        unparse_stack stack +++ unparse current +++ str
  end.
Proof.
induction str as [|ch rest IH]; intros current stack Hlast; simpl.
- exists current, stack. now rewrite StrFacts.app_nil_r.
- destruct (Ascii.eqb ch "{") eqn:Hopen.
  + apply Ascii.eqb_eq in Hopen; subst ch.
    specialize (IH [Str ""] (current :: stack) (last_is_str_single "")).
    simpl in IH.
    destruct (depth_after rest (S (List.length stack))); [|exact IH].
    destruct IH as (c' & s' & Hrun & Hlen & Hl & Htext).
    exists c', s'. repeat split; try assumption.
    rewrite Htext. unfold unparse at 2; simpl.
    now rewrite !StrFacts.app_assoc.
  + destruct (Ascii.eqb ch "}") eqn:Hclose.
    * apply Ascii.eqb_eq in Hclose; subst ch.
      destruct stack as [|parent stack']; simpl; [reflexivity|].
      specialize (IH (parent ++ [Sub current; Str ""]) stack'
                     (last_is_str_closed parent current)).
      destruct (depth_after rest (List.length stack')); [|exact IH].
      destruct IH as (c' & s' & Hrun & Hlen & Hl & Htext).
      exists c', s'. repeat split; try assumption.
      rewrite Htext, unparse_app.
      unfold unparse at 2; simpl. fold (unparse current).
      now str_norm.
    * destruct (add_to_last_str current ch Hlast) as [Hl' Htext'].
      specialize (IH (add_to_last current ch) stack Hl').
      destruct (depth_after rest (List.length stack)); [|exact IH].
      destruct IH as (c' & s' & Hrun & Hlen & Hl & Htext).
      exists c', s'. repeat split; try assumption.
      rewrite Htext, Htext'. now rewrite !StrFacts.app_assoc.
Qed.

Lemma parse_balanced (str : string) (o : options) :
  balanced str -> exists t, parse str o = Ok t.
Proof.
  intros Hbal. unfold parse.
  pose proof (parse_loop_spec str [Str ""] [] (last_is_str_single "")) as H.
  simpl in H. unfold balanced in Hbal. rewrite Hbal in H.
  destruct H as (c' & s' & Hrun & Hlen & _ & _).
  rewrite Hrun; simpl. destruct s'; [eauto | discriminate].
Qed.

Lemma parse_unmatched_open (str : string) (o : options) :
unmatched_open str ->
parse str o =
Throw (Error ("Unmatched curly bracket" +++ Str.nl +++ "File: " +++ show_file (file o))).
Proof.
intros [d Hd]. unfold parse.
pose proof (parse_loop_spec str [Str ""] [] (last_is_str_single "")) as H.
simpl in H. rewrite Hd in H.
destruct H as (c' & s' & Hrun & Hlen & _ & _).
rewrite Hrun; simpl. destruct s'; [discriminate|]. reflexivity.
Qed.

Lemma parse_extra_close (str : string) (o : options) :
extra_close str ->
parse str o = Throw (TypeError "Cannot read property 'push' of undefined").
Proof.
intros Hx. unfold parse.
pose proof (parse_loop_spec str [Str ""] [] (last_is_str_single "")) as H.
simpl in H. unfold extra_close in Hx. rewrite Hx in H.
now rewrite H.
Qed.

(** The file name given in the options is part of the message. *)
Lemma parse_unmatched_open_names_file (str : string) (o : options) (name : string) :
unmatched_open str -> file o = Some name ->
exists message, parse str o = Throw (Error message) /\ Str.occurs_in name message.
Proof.
intros Hopen Hfile. rewrite (parse_unmatched_open str o Hopen), Hfile.
eexists; split; [reflexivity|].
exists ("Unmatched curly bracket" +++ Str.nl +++ "File: "), "".
simpl. now rewrite StrFacts.app_nil_r.
Qed.

End ParseFacts.

(** C3: for an input with balanced braces, [parse] returns a tree, and
    writing the tree back - its string slots in order, [{] and [}] put back
    around each nested node - gives the input again, character for
    character. *)
Theorem parse_unparse_roundtrip (str : string) (o : options) :
  balanced str ->
  exists t, parse str o = Ok t /\ unparse t = str.
Proof.
  intros Hbal. unfold parse.
  pose proof (parse_loop_spec str [Str ""] [] (last_is_str_single "")) as H.
  simpl in H. unfold balanced in Hbal. rewrite Hbal in H.
  destruct H as (c' & s' & Hrun & Hlen & _ & Htext).
  rewrite Hrun; simpl. destruct s'; [|discriminate].
  exists c'. split; [reflexivity | exact Htext].
Qed.

Lemma parse_unparse_roundtrip_witness :
  balanced "<ul>{each pages <li>{. title}</li>}</ul>{has x {-> y {path}}}" /\
  exists t,
    parse "<ul>{each pages <li>{. title}</li>}</ul>{has x {-> y {path}}}" no_options = Ok t /\
    unparse t = "<ul>{each pages <li>{. title}</li>}</ul>{has x {-> y {path}}}".
Proof.
  split; [reflexivity|].
  apply (parse_unparse_roundtrip
           "<ul>{each pages <li>{. title}</li>}</ul>{has x {-> y {path}}}" no_options).
  reflexivity.
Defined.

(** C2, at a template with a [}] too many: [parse] does not throw its own
    "Unmatched curly bracket" error there; [stack.pop()] gives [undefined]
    and the engine throws a [TypeError], whatever the options, and
    [compile] ends the same way. *)
Theorem parse_stray_close_is_type_error :
  extra_close "a}b" /\
  parse "a}b" (mkOptions [] (Some "page.html") None) =
    Throw (TypeError "Cannot read property 'push' of undefined") /\
  compile [] 3 "a}b" (mkOptions [] (Some "page.html") None) =
    Throw (TypeError "Cannot read property 'push' of undefined").
Proof. repeat split. Qed.

(* ================================================================= *)
(** ** [parseArg] and [transform] *)

Section TransformFacts.
Variable o : options.

Lemma transform_node (fuel : nat) (s : string) (rest : tree) :
  transform o (S fuel) (Str s :: rest) =
  let name := fst (take_arg s) in
  let t := Str (snd (take_arg s)) :: rest in
  match lookup name (macros o) with
  | Some m => m t (transform o fuel)
  | None =>
      match lookup name nativeMacros with
      | Some m => m t (transform o fuel)
      | None => not_a_macro o name
      end
  end.
Proof. reflexivity. Qed.

Lemma blank_no_token (s : string) : blank s = true -> non_space_prefix s = "".
Proof. destruct s as [|c s]; simpl; [reflexivity|]. now destruct (is_space c). Qed.

Lemma blank_dropped (s : string) : blank s = true -> drop_spaces s = "".
Proof.
  induction s as [|c s IH]; simpl; [reflexivity|].
  destruct (is_space c); simpl; [exact IH | discriminate].
Qed.

Lemma take_arg_blank (s : string) : blank s = true -> take_arg s = ("", "").
Proof.
  intros Hb. unfold take_arg. rewrite (blank_no_token s Hb).
  change (substr s (String.length "")) with s.
  now rewrite (blank_dropped s Hb).
Qed.

Lemma transforms_children_cases (name : string) :
  transforms_children name = true ->
  name = "->" \/ name = "has" \/ name = "each" \/ name = "out".
Proof.
  unfold transforms_children; simpl.
  destruct (String.eqb_spec name "->"); [now left|].
  destruct (String.eqb_spec name "has"); [now right; left|].
  destruct (String.eqb_spec name "each"); [now right; right; left|].
  destruct (String.eqb_spec name "out"); [now right; right; right|].
  discriminate.
Qed.

Lemma ignores_children_cases (name : string) :
  ignores_children name = true -> name = "." \/ name = "path".
Proof.
  unfold ignores_children; simpl.
  destruct (String.eqb_spec name "."); [now left|].
  destruct (String.eqb_spec name "path"); [now right|].
  discriminate.
Qed.

Lemma unknown_not_native (name : string) :
  transforms_children name = false -> ignores_children name = false ->
  lookup name nativeMacros = None.
Proof.
  unfold transforms_children, ignores_children, nativeMacros.
  cbn [existsb lookup orb]. rewrite !(String.eqb_sym name).
  destruct (String.eqb "." name); [discriminate 2|].
  destruct (String.eqb "->" name); [discriminate 1|].
  destruct (String.eqb "has" name); [discriminate 1|].
  destruct (String.eqb "each" name); [discriminate 1|].
  destruct (String.eqb "path" name); [discriminate 2|].
  destruct (String.eqb "out" name); [discriminate 1|].
  reflexivity.
Qed.

Lemma height_slot (x : item) (t : tree) (fuel : nat) :
  height (Sub (x :: t)) <= S fuel -> height x <= fuel /\ height (Sub t) <= S fuel.
Proof. simpl. lia. Qed.

Lemma transformTree_reach (fuel : nat) :
  (forall t, height (Sub t) <= fuel ->
             agrees o (first_unknown o (Sub t)) (transform o fuel t)) ->
  forall l, height (Sub l) <= S fuel ->
            agrees o (first_unknown_among o l) (transformTree l (transform o fuel)).
Proof.
  intros IH l. induction l as [|x l IHl]; intros Hh.
  - simpl. now exists "", [].
  - apply height_slot in Hh. destruct Hh as [Hx Hl]. specialize (IHl Hl).
    destruct x as [s|child].
    + change (first_unknown_among o (Str s :: l)) with (first_unknown_among o l).
      simpl transformTree.
      destruct (first_unknown_among o l); simpl in *.
      * destruct IHl as (c & t' & ->). simpl. eauto.
      * now rewrite IHl.
      * exact I.
    + specialize (IH child Hx).
      change (first_unknown_among o (Sub child :: l)) with
        (match first_unknown o (Sub child) with
         | AllKnown => first_unknown_among o l
         | r => r
         end).
      simpl transformTree.
      destruct (first_unknown o (Sub child)); simpl in IH.
      * destruct IH as (c & t' & ->). simpl.
        destruct (first_unknown_among o l); simpl in *.
        -- destruct IHl as (c2 & t2 & ->). simpl. eauto.
        -- now rewrite IHl.
        -- exact I.
      * simpl. now rewrite IH.
      * exact I.
Qed.

Lemma first_unknown_node (s : string) (rest : tree) :
  first_unknown o (Sub (Str s :: rest)) =
  let name := fst (take_arg s) in
  match lookup name (macros o) with
  | Some _ => LeavesBundled
  | None =>
      if transforms_children name then first_unknown_among o rest
      else if ignores_children name then AllKnown
      else FirstUnknown name
  end.
Proof. reflexivity. Qed.

Lemma transform_reach (fuel : nat) :
  forall t, height (Sub t) <= fuel ->
            agrees o (first_unknown o (Sub t)) (transform o fuel t).
Proof.
  induction fuel as [|fuel IH]; intros t Hh.
  - simpl in Hh. lia.
  - destruct t as [|[s|u] rest]; try exact I.
    rewrite first_unknown_node, transform_node. cbv zeta.
    destruct (lookup (fst (take_arg s)) (macros o)); [exact I|].
    pose proof (transformTree_reach fuel IH rest) as Hrest.
    assert (Hr : height (Sub rest) <= S fuel) by (simpl in *; lia).
    specialize (Hrest Hr).
    destruct (transforms_children (fst (take_arg s))) eqn:Htc.
    + assert (Hbody : forall lead,
                 agrees o (first_unknown_among o rest)
                   (transformTree (Str lead :: rest) (transform o fuel))).
      { intros lead. simpl transformTree.
        destruct (first_unknown_among o rest); simpl in *.
        - destruct Hrest as (c & t' & ->). simpl. eauto.
        - now rewrite Hrest.
        - exact I. }
      destruct (transforms_children_cases _ Htc) as [-> | [-> | [-> | ->]]];
        simpl lookup; cbv beta;
        unfold macro_arrow, macro_has, macro_each, macro_out, parsePath, parseArg;
        cbn [bind];
        match goal with
        | |- context [transformTree (Str ?lead :: rest) _] =>
            specialize (Hbody lead)
        end;
        destruct (first_unknown_among o rest); simpl in Hbody |- *;
        try exact I;
        try (destruct Hbody as (c & t' & ->); simpl; eauto; fail);
        try (now rewrite Hbody).
    + destruct (ignores_children (fst (take_arg s))) eqn:Hic.
      * destruct (ignores_children_cases _ Hic) as [-> | ->];
          simpl lookup; cbv beta;
          unfold macro_dot, macro_path, parsePath, parseArg; cbn [bind];
          unfold agrees; eauto.
      * rewrite (unknown_not_native _ Htc Hic). reflexivity.
Qed.

End TransformFacts.

(* ================================================================= *)
(** ** Macro lookup in [compile] *)

(** C7: for a node with macro name [name], [transform] first looks [name]
    up in the caller's table and calls what it finds there, on the node
    with its name cut off and with [transform] itself as callback; only a
    name the caller has not registered goes to the bundled macros.  So a
    caller's macro called [each] or [.] is the one that runs for every node
    of that name. *)
Theorem user_macro_before_builtin (o : options) (fuel : nat) (t t' : tree)
  (name : string) :
  parseArg t = Ok (name, t') ->
  (forall m, lookup name (macros o) = Some m ->
             transform o (S fuel) t = m t' (transform o fuel)) /\
  (forall b, lookup name (macros o) = None ->
             lookup name nativeMacros = Some b ->
             transform o (S fuel) t = b t' (transform o fuel)).
Proof.
  intros Harg. destruct t as [|[s|u] rest]; try discriminate.
  unfold parseArg in Harg. injection Harg as <- <-.
  rewrite transform_node. cbv zeta. unfold take_arg; cbn [fst snd].
  split; [intros m Hm | intros b Hm Hb]; rewrite Hm; [|rewrite Hb]; reflexivity.
Qed.

Lemma user_macro_before_builtin_witness :
  let shout : macro := fun t _ => Ok ("__out.push(1);", t) in
  let o := mkOptions [("each", shout)] None None in
  parseArg [Str "each items <li>"; Sub [Str ". name"]; Str "</li>"] =
    Ok ("each", [Str "items <li>"; Sub [Str ". name"]; Str "</li>"]) /\
  lookup "each" (macros o) = Some shout /\
  transform o 3 [Str "each items <li>"; Sub [Str ". name"]; Str "</li>"] =
    Ok ("__out.push(1);", [Str "items <li>"; Sub [Str ". name"]; Str "</li>"]).
Proof.
  intros shout o. split; [reflexivity|]. split; [reflexivity|].
  exact (proj1 (user_macro_before_builtin o 2
                  [Str "each items <li>"; Sub [Str ". name"]; Str "</li>"]
                  [Str "items <li>"; Sub [Str ". name"]; Str "</li>"]
                  "each" eq_refl) shout eq_refl).
Defined.

Lemma not_a_macro_names (o : options) (name : string) :
  exists message,
    not_a_macro o name = Throw (Error message) /\ Str.occurs_in name message.
Proof.
  eexists; split; [reflexivity|].
  exists ("Not a macro: " +++ Str.dquote),
         (Str.dquote +++ Str.nl +++ "File: " +++ show_file (file o)).
  unfold quoted. now str_norm.
Qed.

Lemma compile_reach (rt : list string) (input : string) (o : options) (t : tree)
  (name : string) (fuel : nat) :
  parse ("out " +++ input) o = Ok t ->
  first_unknown o (Sub t) = FirstUnknown name ->
  height (Sub t) <= fuel ->
  compile rt fuel input o =
  Throw (Error (("Not a macro: " +++ quoted name) +++ Str.nl +++ "File: " +++
                show_file (file o))).
Proof.
  intros Hparse Hfirst Hfuel. unfold compile. rewrite Hparse. cbn [bind].
  pose proof (transform_reach o fuel t Hfuel) as H.
  rewrite Hfirst in H. simpl in H. now rewrite H.
Qed.




(** C10, as the code has it: a node whose first slot has no character
    other than white space gives [parseArg] the empty string; when
    [transform] is called on such a node and the caller has no macro of the
    empty name, it throws the "Not a macro" error with the empty name. *)
Theorem blank_node_is_not_a_macro (o : options) (fuel : nat) (s : string)
  (rest : tree) :
  blank s = true ->
  lookup "" (macros o) = None ->
  parseArg (Str s :: rest) = Ok ("", Str "" :: rest) /\
  transform o (S fuel) (Str s :: rest) =
    Throw (Error (("Not a macro: " +++ quoted "") +++ Str.nl +++ "File: " +++
                  show_file (file o))).
Proof.
  intros Hblank Huser. split.
  - unfold parseArg. now rewrite (take_arg_blank s Hblank).
  - rewrite transform_node. cbv zeta.
    rewrite (take_arg_blank s Hblank). simpl fst. now rewrite Huser.
Qed.

Lemma blank_node_is_not_a_macro_witness :
  blank "  " = true /\
  lookup "" (macros no_options) = None /\
  parseArg [Str "  "; Sub [Str ". a"]; Str ""] = Ok ("", [Str ""; Sub [Str ". a"]; Str ""]) /\
  transform no_options 2 [Str "  "; Sub [Str ". a"]; Str ""] =
    Throw (Error (("Not a macro: " +++ quoted "") +++ Str.nl +++ "File: " +++
                  "undefined")).
Proof.
  split; [reflexivity|]. split; [reflexivity|].
  exact (blank_node_is_not_a_macro no_options 1 "  " [Sub [Str ". a"]; Str ""]
           eq_refl eq_refl).
Defined.

(** The claim C10 as it is written fails at [{. {}}]: the template has an
    empty brace pair, no macro has the empty name, and [compile] returns
    the function. *)
Lemma empty_braces_inside_dot_compile :
  parse ("out " +++ "{. {}}") no_options =
    Ok [Str "out "; Sub [Str ". "; Sub [Str ""]; Str ""]; Str ""] /\
  has_blank_node (Sub [Str "out "; Sub [Str ". "; Sub [Str ""]; Str ""]; Str ""]) = true /\
  lookup "" (macros no_options) = None /\
  compile [] 3 "{. {}}" no_options =
    Ok (wrapTemplate []
          ("__out.push(resolve(addToPath(path, " +++ quoted "" +++ "), data));")
          no_options).
Proof. repeat split. Qed.

(* ================================================================= *)
(** ** The runtime *)

Module RuntimeFacts.
Import Js Runtime.

Lemma bind_ok {A B} (m : outcome A) (k : A -> outcome B) (b : B) :
  bind m k = Ok b -> exists a, m = Ok a /\ k a = Ok b.
Proof. destruct m; simpl; try discriminate. eauto. Qed.

(** A property of the state that every run of the loop body keeps is kept
    by the loop. *)
Lemma for_each_invariant {A S} (I : S -> Prop) (l : list A)
  (body : A -> S -> outcome S) :
  (forall x s s', I s -> body x s = Ok s' -> I s') ->
  forall s s', I s -> for_each l body s = Ok s' -> I s'.
Proof.
  intros Hbody. induction l as [|x l IH]; intros s s' Hs Hrun; simpl in Hrun.
  - now injection Hrun as <-.
  - apply bind_ok in Hrun. destruct Hrun as (s1 & H1 & H2).
    eapply IH; [|exact H2]. eapply Hbody; eassumption.
Qed.

(** Two loop bodies that do the same on the states with a property they
    keep give the same loop. *)
Lemma for_each_ext {A S} (I : S -> Prop) (l : list A)
  (body body' : A -> S -> outcome S) :
  (forall x s, I s -> body x s = body' x s) ->
  (forall x s s', I s -> body x s = Ok s' -> I s') ->
  forall s, I s -> for_each l body s = for_each l body' s.
Proof.
  intros Hsame Hkeep. induction l as [|x l IH]; intros s Hs; simpl; [reflexivity|].
  rewrite <- (Hsame x s Hs).
  destruct (body x s) as [s1| |] eqn:Hb; simpl; try reflexivity.
  apply IH. eapply Hkeep; eassumption.
Qed.

Lemma each_invariant {S} (I : S -> Prop) (obj : value)
  (iterator : value -> value -> S -> outcome S) :
  (forall k v s s', I s -> iterator k v s = Ok s' -> I s') ->
  forall s s', I s -> each obj iterator s = Ok s' -> I s'.
Proof.
  intros Hit s s' Hs. unfold each.
  destruct (negb (truthy obj)); [now intros [= <-]|].
  destruct obj;
    try (apply for_each_invariant; [|exact Hs];
         intros key s1 s2 H1;
         destruct (hasOwnProperty _ key); [|now intros [= <-]];
         intros H; apply bind_ok in H; destruct H as (v & _ & H);
         eapply Hit; eassumption).
  apply for_each_invariant; [|exact Hs].
  intros i s1 s2 H1 H. eapply Hit; eassumption.
Qed.

Lemma each_ext {S} (I : S -> Prop) (obj : value)
  (iterator iterator' : value -> value -> S -> outcome S) :
  (forall k v s, I s -> iterator k v s = iterator' k v s) ->
  (forall k v s s', I s -> iterator k v s = Ok s' -> I s') ->
  forall s, I s -> each obj iterator s = each obj iterator' s.
Proof.
  intros Hsame Hkeep s Hs. unfold each.
  destruct (negb (truthy obj)); [reflexivity|].
  destruct obj;
    try (apply (for_each_ext I); [| |exact Hs];
         [ intros key s1 H1; destruct (hasOwnProperty _ key); [|reflexivity];
           destruct (get _ key); simpl; auto
         | intros key s1 s2 H1;
           destruct (hasOwnProperty _ key); [|now intros [= <-]];
           intros H; apply bind_ok in H; destruct H as (v & _ & H);
           eapply Hkeep; eassumption ]).
  apply (for_each_ext I); [| |exact Hs].
  - intros i s1 H1. now apply Hsame.
  - intros i s1 s2 H1 H. eapply Hkeep; eassumption.
Qed.

End RuntimeFacts.

(* ================================================================= *)
(** ** The generated code *)

Section ExecFacts.
Import Js Code Gen RuntimeFacts.

Variable addToPath : value -> value -> outcome value.
Variable resolve : value -> value -> outcome value.

Abbreviation exec := (Code.exec addToPath resolve).
Abbreviation exec_block := (Code.exec_block addToPath resolve).
Abbreviation eval := (Code.eval addToPath resolve).

Lemma exec_block_app (a b : block) (item : option value) (st : state) :
  exec_block (a ++ b) item st =
  let* st' := exec_block a item st in exec_block b item st'.
Proof.
  revert st. induction a as [|x a IH]; intros st; simpl; [reflexivity|].
  destruct (exec x item st); simpl; auto.
Qed.

Lemma exec_block_nil (item : option value) (st : state) :
  exec_block [] item st = Ok st.
Proof. reflexivity. Qed.

Lemma exec_block_cons (x : stmt) (l : block) (item : option value) (st : state) :
  exec_block (x :: l) item st =
  let* st' := exec x item st in exec_block l item st'.
Proof. reflexivity. Qed.

Lemma exec_block_one (x : stmt) (item : option value) (st : state) :
  exec_block [x] item st = exec x item st.
Proof. simpl. now destruct (exec x item st). Qed.

Lemma exec_Assign (e : expr) (item : option value) (st : state) :
  exec (Assign e) item st = let* v := eval e item st in Ok (set_path v st).
Proof. reflexivity. Qed.

Lemma exec_Newline (item : option value) (st : state) :
  exec Newline item st = Ok st.
Proof. reflexivity. Qed.

Lemma exec_Scope (body : block) (item : option value) (st : state) :
  exec (Scope body) item st =
  let* inner := exec_block body item st in
  Ok (mkState (st_data inner) (st_path st) (st_out inner)).
Proof. reflexivity. Qed.

Lemma exec_IfDefined (e : expr) (body : block) (item : option value) (st : state) :
  exec (IfDefined e body) item st =
  let* v := eval e item st in
  match v with
  | VUndef => Ok st
  | _ => exec_block body item st
  end.
Proof. reflexivity. Qed.

Lemma exec_Each (e : expr) (body : block) (item : option value) (st : state) :
  exec (Each e body) item st =
  let* v := eval e item st in
  Runtime.each v (fun key _ st' => exec_block body (Some key) st') st.
Proof. reflexivity. Qed.

(** After a [Scope], [path] is what it was before. *)
Lemma exec_Scope_path (body : block) (item : option value) (st st' : state) :
  exec (Scope body) item st = Ok st' -> st_path st' = st_path st.
Proof.
  rewrite exec_Scope. intros H. apply bind_ok in H.
  destruct H as (inner & _ & H). now injection H as <-.
Qed.

(** No statement writes [data]. *)
Lemma exec_data (s : stmt) :
  forall item st st', exec s item st = Ok st' -> st_data st' = st_data st.
Proof.
  induction s as [txt|e|e| |body IH|e body IH|e body IH] using stmt_ind';
    intros item st st' H.
  - simpl in H. injection H as <-. now destruct (String.eqb txt "").
  - simpl in H. apply bind_ok in H. destruct H as (v & _ & H). now injection H as <-.
  - simpl in H. apply bind_ok in H. destruct H as (v & _ & H). now injection H as <-.
  - simpl in H. now injection H as <-.
  - rewrite exec_Scope in H. apply bind_ok in H. destruct H as (inner & Hin & H).
    injection H as <-. simpl.
    revert st Hin. induction IH as [|x l Hx _ IHl]; intros st Hin; simpl in Hin.
    + now injection Hin as <-.
    + apply bind_ok in Hin. destruct Hin as (s1 & H1 & H2).
      rewrite (IHl s1 H2). eapply Hx; eassumption.
  - rewrite exec_IfDefined in H. apply bind_ok in H. destruct H as (v & _ & H).
    assert (Hblock : forall st st', exec_block body item st = Ok st' ->
                                    st_data st' = st_data st).
    { clear H. induction IH as [|x l Hx _ IHl]; intros s0 s1 Hrun; simpl in Hrun.
      - now injection Hrun as <-.
      - apply bind_ok in Hrun. destruct Hrun as (s2 & H1 & H2).
        rewrite (IHl s2 s1 H2). eapply Hx; eassumption. }
    destruct v; try (now apply Hblock); now injection H as <-.
  - rewrite exec_Each in H. apply bind_ok in H. destruct H as (v & _ & H).
    assert (Hblock : forall key st st', exec_block body key st = Ok st' ->
                                        st_data st' = st_data st).
    { clear H. induction IH as [|x l Hx _ IHl]; intros key s0 s1 Hrun; simpl in Hrun.
      - now injection Hrun as <-.
      - apply bind_ok in Hrun. destruct Hrun as (s2 & H1 & H2).
        rewrite (IHl key s2 s1 H2). eapply Hx; eassumption. }
    apply (each_invariant (fun s => st_data s = st_data st) v _) with (s := st) in H;
      [exact H | | reflexivity].
    intros k _ s1 s2 Hs1 Hrun. rewrite <- Hs1. eapply Hblock; eassumption.
Qed.

Lemma exec_block_data (body : block) :
  forall item st st', exec_block body item st = Ok st' -> st_data st' = st_data st.
Proof.
  induction body as [|x l IH]; intros item st st' H; simpl in H.
  - now injection H as <-.
  - apply bind_ok in H. destruct H as (s1 & H1 & H2).
    rewrite (IH item s1 st' H2). eapply exec_data; eassumption.
Qed.

Lemma set_path_same (st1 : state) (p : value) :
  st_path st1 = p -> set_path p st1 = st1.
Proof. intros <-. now destruct st1. Qed.

(** What follows a [Scope] runs with the [path] of before it. *)
Lemma scope_then (body following : block) (item : option value) (st : state) :
  exec_block ([Scope body] ++ following) item st =
  let* st1 := exec_block [Scope body] item st in
  exec_block following item (set_path (st_path st) st1).
Proof.
  rewrite exec_block_app.
  destruct (exec_block [Scope body] item st) as [st1| |] eqn:Hrun; simpl; try reflexivity.
  rewrite set_path_same; [reflexivity|].
  rewrite exec_block_one in Hrun. eapply exec_Scope_path; eassumption.
Qed.

(** The statements of an [each] node, run: the path is moved on by the
    argument, the value there is gone through with [each], and the body of
    each entry starts from the moved path with the key of the entry added,
    whatever the entries before it did to their own [path]. *)
Lemma exec_each_node (p : string) (body : block) (item : option value) (st : state) :
  exec_block (d_each current p body) item st =
  let* base := addToPath (st_path st) (VStr p) in
  let* v := resolve base (st_data st) in
  let* st1 :=
    Runtime.each v
      (fun key _ s1 =>
         let* entry := addToPath base key in
         let* s2 := exec_block body (Some key)
                      (mkState (st_data s1) entry (st_out s1)) in
         Ok (mkState (st_data s2) base (st_out s2)))
      (set_path base st) in
  Ok (set_path (st_path st) st1).
Proof.
  unfold d_each, current.
  rewrite exec_block_one, exec_Scope, exec_block_cons, exec_Assign.
  cbn [Code.eval bind].
  destruct (addToPath (st_path st) (VStr p)) as [base| |]; cbn [bind]; try reflexivity.
  rewrite exec_block_cons, exec_Newline. cbn [bind].
  rewrite exec_block_one, exec_Each. cbn [Code.eval bind].
  cbn [set_path st_path st_data st_out].
  destruct (resolve base (st_data st)) as [v| |]; cbn [bind]; try reflexivity.
  fold (set_path base st).
  rewrite (each_ext (fun s => st_path s = base) v _
             (fun key _ s1 =>
                let* entry := addToPath base key in
                let* s2 := exec_block body (Some key)
                             (mkState (st_data s1) entry (st_out s1)) in
                Ok (mkState (st_data s2) base (st_out s2)))).
  - destruct (Runtime.each v _ (set_path base st)); reflexivity.
  - intros key _ s1 Hs1.
    rewrite exec_block_one, exec_Scope, exec_block_cons, exec_Assign.
    cbn [Code.eval bind]. rewrite Hs1.
    destruct (addToPath base key) as [entry| |]; reflexivity.
  - intros key _ s1 s2 Hs1 Hrun. rewrite exec_block_one in Hrun.
    rewrite <- Hs1. eapply exec_Scope_path; eassumption.
  - reflexivity.
Qed.


End ExecFacts.


(* ================================================================= *)
(** ** The function [wrapTemplate] builds *)

Section CallFacts.
Import Js Code.

Lemma falsy_values :
  truthy VUndef = false /\ truthy VNull = false /\ truthy (VBool false) = false /\
  truthy (VNum 0) = false /\ truthy VNaN = false /\ truthy (VStr "") = false.
Proof. repeat split. Qed.


End CallFacts.


(* ================================================================= *)
(** ** [resolve] *)

Section ResolveFacts.
Import Js Runtime.

Lemma get_defined (obj : value) (key : string) :
  truthy obj = true -> exists v, get obj key = Ok v.
Proof.
  destruct obj; simpl; try discriminate; intros _; eauto.
  destruct (lookup key own); [eauto|]. destruct (lookup key inherited); eauto.
Qed.

Lemma resolve_loop_total (parts : list string) :
  forall obj, truthy obj = true -> exists v, resolve_loop obj parts = Ok v.
Proof.
  induction parts as [|part parts IH]; intros obj Hobj; simpl; [eauto|].
  destruct (get_defined obj part Hobj) as [next ->]. simpl.
  destruct (truthy next) eqn:Hnext; [now apply IH | eauto].
Qed.

(** [resolve] does not throw: [data] is truthy after [data = data || {}],
    and the loop only steps to truthy values. *)
Lemma resolve_total (data : value) (path : string) :
  truthy data = true -> exists v, resolve data path = Ok v.
Proof. apply resolve_loop_total. Qed.

(** A property that is there with a falsy value ends the loop with a part
    left over, as a property that is not there does. *)
Lemma resolve_loop_falsy (own inherited : list (string * value)) (key : string)
  (rest : list string) (v : value) :
  lookup key own = Some v -> truthy v = false ->
  resolve_loop (VObj own inherited) (key :: rest) = Ok VUndef.
Proof.
  intros Hown Hfalsy. cbn [resolve_loop get]. rewrite Hown. cbn [bind].
  now rewrite Hfalsy.
Qed.

End ResolveFacts.

(** C1, at the data [{count: 0, title: "", done: false}]: [resolve] meets
    the falsy value in the test of its loop, stops with a part left over
    and returns [undefined].  So [{. count}] prints nothing, not [0], and
    [{has count ...}] leaves its children out, as for the name [missing]
    that the data does not have; with [count: 7] both do what the claim
    says. *)
Theorem falsy_value_resolves_as_absent :
  let data := Js.VObj [("count", Js.VNum 0); ("title", Js.VStr "");
                       ("done", Js.VBool false)] [] in
  Runtime.resolve data ".count" = Ok Js.VUndef /\
  Runtime.resolve data ".missing" = Ok Js.VUndef /\
  Bundle.render "{. count}" data = Ok "" /\
  Bundle.render "{has count yes}" data = Ok "" /\
  Bundle.render "{has title yes}" data = Ok "" /\
  Bundle.render "{has done yes}" data = Ok "" /\
  Bundle.render "{has missing yes}" data = Ok "" /\
  Bundle.render "{. count}" (Js.VObj [("count", Js.VNum 7)] []) = Ok "7" /\
  Bundle.render "{has count yes}" (Js.VObj [("count", Js.VNum 7)] []) = Ok "yes".
Proof. repeat split. Qed.

(* ================================================================= *)
(** ** [each] *)

Section EachFacts.
Import Js Runtime RuntimeFacts.

Lemma to_uint_nonnil (n : nat) : Nat.to_uint n <> Decimal.Nil.
Proof.
  intros H. pose proof (Unsigned.to_of (Nat.to_uint n)) as Hn.
  rewrite Unsigned.of_to, H in Hn. symmetry in Hn.
  now apply DecimalFacts.unorm_nonnil in Hn.
Qed.

Lemma string_of_nat_inj (n m : nat) : string_of_nat n = string_of_nat m -> n = m.
Proof.
  unfold string_of_nat. intros H.
  apply (f_equal NilZero.uint_of_string) in H.
  rewrite !NilZero.usu in H by apply to_uint_nonnil.
  injection H as H. now apply Unsigned.to_uint_inj.
Qed.

Lemma find_the_one (P : nat -> bool) (i : nat) :
  P i = true -> (forall j, P j = true -> j = i) ->
  forall len start, start <= i < start + len -> find P (seq start len) = Some i.
Proof.
  intros Hi Huniq. induction len as [|len IH]; intros start Hrange; [lia|].
  simpl. destruct (P start) eqn:Hs.
  - now rewrite (Huniq start Hs).
  - apply IH. assert (start <> i) by (intros ->; congruence). lia.
Qed.

Lemma index_of_key_index (i len : nat) :
  i < len -> index_of_key (string_of_nat i) len = Some i.
Proof.
  intros Hi. unfold index_of_key. apply find_the_one; [apply String.eqb_refl | | lia].
  intros j Hj. apply String.eqb_eq in Hj. now apply string_of_nat_inj.
Qed.

Lemma chars_length (s : string) : List.length (chars s) = String.length s.
Proof. induction s as [|c s IH]; simpl; [reflexivity | now rewrite IH]. Qed.

Lemma mem_In (key : string) (l : list string) : mem key l = true <-> In key l.
Proof.
  unfold mem. rewrite existsb_exists. split.
  - intros (x & Hx & Heq). apply String.eqb_eq in Heq. now subst.
  - intros H. exists key. split; [exact H | apply String.eqb_refl].
Qed.

Lemma for_each_app {A S} (a b : list A) (body : A -> S -> outcome S) (s : S) :
  for_each (a ++ b) body s = let* s' := for_each a body s in for_each b body s'.
Proof.
  revert s. induction a as [|x a IH]; intros s; simpl; [reflexivity|].
  destruct (body x s); simpl; auto.
Qed.

Lemma for_each_map {A B S} (g : A -> B) (l : list A) (body : B -> S -> outcome S)
  (s : S) :
  for_each (map g l) body s = for_each l (fun x => body (g x)) s.
Proof.
  revert s. induction l as [|x l IH]; intros s; simpl; [reflexivity|].
  destruct (body (g x) s); simpl; auto.
Qed.

Lemma for_each_same {A S} (l : list A) (body body' : A -> S -> outcome S) :
  (forall x s, In x l -> body x s = body' x s) ->
  forall s, for_each l body s = for_each l body' s.
Proof.
  induction l as [|x l IH]; intros Hsame s; simpl; [reflexivity|].
  rewrite (Hsame x s (or_introl eq_refl)).
  destruct (body' x s); simpl; try reflexivity.
  apply IH. intros y s' Hy. apply Hsame. now right.
Qed.

Lemma for_each_skip {A S} (l : list A) (s : S) :
  for_each l (fun _ s' => Ok s') s = Ok s.
Proof. induction l as [|x l IH]; simpl; [reflexivity | exact IH]. Qed.

Lemma bind_ret {A} (m : outcome A) : bind m Ok = m.
Proof. now destruct m. Qed.

Lemma lookup_In {A} (key : string) (tbl : list (string * A)) :
  In key (map fst tbl) -> exists v, lookup key tbl = Some v.
Proof.
  induction tbl as [|[k v] tbl IH]; simpl; [intros []|].
  intros [-> | Hin].
  - rewrite String.eqb_refl. eauto.
  - destruct (String.eqb k key); eauto.
Qed.

Lemma keys_In (props : list (string * value)) (key : string) :
  In key (keys props) <-> In key (map fst props).
Proof. unfold keys. apply nodup_In. Qed.

(** The loop over an object: of the keys [for in] lists, the test lets the
    own ones through and no other. *)
Lemma each_object {S} (own inherited : list (string * value))
  (iterator : value -> value -> S -> outcome S) (s : S) :
  for_each (for_in_keys (VObj own inherited))
    (fun key s =>
       if hasOwnProperty (VObj own inherited) key then
         let* item := get (VObj own inherited) key in iterator (VStr key) item s
       else Ok s) s =
  for_each (keys own) (fun key => iterator (VStr key) (own_value own key)) s.
Proof.
  cbn [for_in_keys hasOwnProperty]. rewrite for_each_app.
  rewrite (for_each_same (keys own) _
             (fun key => iterator (VStr key) (own_value own key))).
  - destruct (for_each (keys own) _ s) as [s'| |]; simpl; try reflexivity.
    rewrite (for_each_same _ _ (fun _ s' => Ok s')); [apply for_each_skip|].
    intros key s1 Hin. apply filter_In in Hin. destruct Hin as [_ Hnot].
    apply negb_true_iff in Hnot. now rewrite Hnot.
  - intros key s1 Hin. rewrite (proj2 (mem_In key (keys own)) Hin).
    apply keys_In, lookup_In in Hin. destruct Hin as [v Hv].
    unfold own_value. cbn [get]. now rewrite Hv.
Qed.

Lemma each_string {S} (str : string)
  (iterator : value -> value -> S -> outcome S) (s : S) :
  for_each (for_in_keys (VStr str))
    (fun key s =>
       if hasOwnProperty (VStr str) key then
         let* item := get (VStr str) key in iterator (VStr key) item s
       else Ok s) s =
  for_each (seq 0 (String.length str))
    (fun i => iterator (VStr (string_of_nat i)) (nth i (chars str) VUndef)) s.
Proof.
  cbn [for_in_keys]. rewrite for_each_map. apply for_each_same.
  intros i s1 Hin. apply in_seq in Hin.
  cbn [hasOwnProperty get]. unfold elem_or_length. rewrite chars_length.
  rewrite index_of_key_index by lia. reflexivity.
Qed.

Lemma NoDup_map_inj {A B} (f : A -> B) (l : list A) :
  (forall x y, f x = f y -> x = y) -> NoDup l -> NoDup (map f l).
Proof.
  intros Hinj Hl. induction Hl as [|x l Hx Hl IH]; simpl; constructor; [|exact IH].
  intros Hin. apply in_map_iff in Hin. destruct Hin as (y & Heq & Hy).
  apply Hinj in Heq. now subst.
Qed.

Lemma visited_once (obj : value) : NoDup (map fst (visited obj)).
Proof.
  unfold visited. destruct (truthy obj); [|constructor].
  destruct obj; simpl; try constructor; rewrite map_map; simpl.
  - apply NoDup_map_inj; [|apply seq_NoDup].
    intros x y [= H]. now apply string_of_nat_inj.
  - apply NoDup_map_inj; [|apply seq_NoDup].
    intros x y [= H]. now apply Nat2Z.inj.
  - apply NoDup_map_inj; [|apply NoDup_nodup].
    now intros x y [= H].
Qed.


End EachFacts.

(* ================================================================= *)
(** ** The text [compile] writes and the statements it stands for *)

Section PrintFacts.
Import Js Code Gen.

Variable o : options.
Hypothesis no_user_macros : macros o = [].

Lemma print_app (a b : block) : print (a ++ b) = print a +++ print b.
Proof.
  induction a as [|x a IH]; simpl; [reflexivity|].
  now rewrite IH, StrFacts.app_assoc.
Qed.

Lemma print_Scope (body : block) : print_stmt (Scope body) = keepPath (print body).
Proof. reflexivity. Qed.

Lemma print_IfDefined (e : expr) (body : block) :
  print_stmt (IfDefined e body) =
  "if (typeof " +++ print_expr e +++ " !== " +++ quoted "undefined" +++ ") {" +++
  Str.nl +++ print body +++ Str.nl +++ "}".
Proof. reflexivity. Qed.

Lemma print_Each (e : expr) (body : block) :
  print_stmt (Each e body) =
  "each(" +++ print_expr e +++ ", function (__itemPath) {" +++
  print body +++ Str.nl +++ "});".
Proof. reflexivity. Qed.

Lemma gen_item_node (s : string) (rest : tree) :
  gen_item current o (Sub (Str s :: rest)) =
  let macroName := fst (take_arg s) in
  let lead := snd (take_arg s) in
  let path := fst (take_arg lead) in
  let body :=
    let* cs := gen_children current o rest in
    Ok (PushText (snd (take_arg lead)) :: cs) in
  if String.eqb macroName "." then Ok (d_dot current path)
  else if String.eqb macroName "->" then let* b := body in Ok (d_arrow current path b)
  else if String.eqb macroName "has" then let* b := body in Ok (d_has current path b)
  else if String.eqb macroName "each" then let* b := body in Ok (d_each current path b)
  else if String.eqb macroName "path" then Ok (d_path current path)
  else if String.eqb macroName "out" then
    let* cs := gen_children current o rest in Ok (PushText lead :: cs)
  else Throw (d_unknown current macroName o).
Proof. reflexivity. Qed.

Lemma transformTree_printed (fuel : nat) :
  (forall t, height (Sub t) <= fuel ->
             printed (transform o fuel t) (gen current o t)) ->
  forall l, height (Sub l) <= S fuel ->
            printed (transformTree l (transform o fuel)) (gen_children current o l).
Proof.
  intros IH l. induction l as [|x l IHl]; intros Hh.
  - simpl. now exists [].
  - apply height_slot in Hh. destruct Hh as [Hx Hl]. specialize (IHl Hl).
    destruct x as [s|child]; cbn [gen_children transformTree].
    + change (gen_item current o (Str s)) with (@Ok block [PushText s]). cbn [bind].
      destruct (gen_children current o l) as [cs|e|]; simpl in IHl |- *.
      * destruct IHl as (t' & ->). simpl. eexists. reflexivity.
      * now rewrite IHl.
      * exact IHl.
    + specialize (IH child Hx). unfold gen in IH.
      destruct (gen_item current o (Sub child)) as [c|e|]; simpl in IH |- *.
      * destruct IH as (t1 & ->). simpl.
        destruct (gen_children current o l) as [cs|e|]; simpl in IHl |- *.
        -- destruct IHl as (t' & ->). simpl. eexists. now rewrite print_app.
        -- now rewrite IHl.
        -- exact IHl.
      * now rewrite IH.
      * exact IH.
Qed.

Lemma transform_printed (fuel : nat) :
  forall t, height (Sub t) <= fuel ->
            printed (transform o fuel t) (gen current o t).
Proof.
  induction fuel as [|fuel IH]; intros t Hh.
  - simpl in Hh. lia.
  - destruct t as [|[s|u] rest]; try reflexivity.
    unfold gen. rewrite gen_item_node, transform_node. cbv zeta.
    rewrite no_user_macros. cbn [lookup].
    pose proof (transformTree_printed fuel IH rest) as Hrest.
    assert (Hr : height (Sub rest) <= S fuel) by (simpl in *; lia).
    specialize (Hrest Hr).
    assert (Hbody : forall lead,
               printed (transformTree (Str lead :: rest) (transform o fuel))
                 (let* cs := gen_children current o rest in Ok (PushText lead :: cs))).
    { intros lead. cbn [transformTree].
      destruct (gen_children current o rest) as [cs|e|]; simpl in Hrest |- *.
      - destruct Hrest as (t' & ->). simpl. eauto.
      - now rewrite Hrest.
      - exact Hrest. }
    unfold nativeMacros. cbn [lookup].
    rewrite !(String.eqb_sym _ (fst (take_arg s))).
    destruct (String.eqb (fst (take_arg s)) ".").
    { unfold macro_dot, parsePath, parseArg. cbn [bind]. simpl. eexists.
      now str_norm. }
    destruct (String.eqb (fst (take_arg s)) "->").
    { unfold macro_arrow, parsePath, parseArg. cbn [bind fst snd].
      specialize (Hbody (snd (take_arg (snd (take_arg s))))).
      destruct (gen_children current o rest) as [cs|e|]; simpl in Hbody |- *.
      - destruct Hbody as (t' & ->). cbn [bind]. eexists.
        unfold keepPath. rewrite print_app. simpl. now str_norm.
      - now rewrite Hbody.
      - exact Hbody. }
    destruct (String.eqb (fst (take_arg s)) "has").
    { unfold macro_has, parsePath, parseArg. cbn [bind fst snd].
      specialize (Hbody (snd (take_arg (snd (take_arg s))))).
      destruct (gen_children current o rest) as [cs|e|]; simpl in Hbody |- *.
      - destruct Hbody as (t' & ->). cbn [bind]. eexists.
        simpl. now str_norm.
      - now rewrite Hbody.
      - exact Hbody. }
    destruct (String.eqb (fst (take_arg s)) "each").
    { unfold macro_each, parsePath, parseArg. cbn [bind fst snd].
      specialize (Hbody (snd (take_arg (snd (take_arg s))))).
      destruct (gen_children current o rest) as [cs|e|]; simpl in Hbody |- *.
      - destruct Hbody as (t' & ->). cbn [bind]. eexists.
        unfold keepPath. simpl. now str_norm.
      - now rewrite Hbody.
      - exact Hbody. }
    destruct (String.eqb (fst (take_arg s)) "path").
    { unfold macro_path, parsePath, parseArg. cbn [bind]. simpl. eexists.
      now str_norm. }
    destruct (String.eqb (fst (take_arg s)) "out").
    { unfold macro_out. apply Hbody. }
    reflexivity.
Qed.

End PrintFacts.

(* ================================================================= *)
(** ** One result per template and registry *)

Section BudgetFacts.
Import Js Code Gen.

Lemma refines_refl {A} (r : outcome A) : refines r r.
Proof. now right. Qed.

Lemma refines_trans {A} (r1 r2 r3 : outcome A) :
  refines r1 r2 -> refines r2 r3 -> refines r1 r3.
Proof. intros [-> | ->]; [now left | auto]. Qed.

Lemma refines_bind {A B} (m m' : outcome A) (k k' : A -> outcome B) :
  refines m m' -> (forall a, refines (k a) (k' a)) ->
  refines (bind m k) (bind m' k').
Proof.
  intros [-> | ->] Hk; [now left|].
  destruct m'; simpl; [apply Hk | now right | now right].
Qed.

Lemma refines_ok {A} (r r' : outcome A) (a : A) :
  refines r r' -> r = Ok a -> r' = Ok a.
Proof. intros [-> | ->]; [discriminate | auto]. Qed.

Lemma transformTree_mono (cb cb' : callback) :
  callback_le cb cb' ->
  forall t, refines (transformTree t cb) (transformTree t cb').
Proof.
  intros Hcb. induction t as [|[s|child] t IH]; cbn [transformTree].
  - apply refines_refl.
  - apply refines_bind; [exact IH|]. intros [out rest']. apply refines_refl.
  - apply refines_bind; [apply Hcb|]. intros [c child'].
    apply refines_bind; [exact IH|]. intros [out rest']. apply refines_refl.
Qed.

Lemma with_children_blind (wrap : string -> code -> code) :
  budget_blind (fun t transform =>
                  let* (path, t) := parsePath t in
                  let* (body, t) := transformTree t transform in
                  Ok (wrap path body, t)).
Proof.
  intros cb cb' t Hcb. apply refines_bind; [apply refines_refl|].
  intros [path t1]. apply refines_bind; [now apply transformTree_mono|].
  intros [body t2]. apply refines_refl.
Qed.

Lemma nativeMacros_blind : budget_blind_registry nativeMacros.
Proof.
  unfold budget_blind_registry, nativeMacros.
  repeat apply Forall_cons; try apply Forall_nil; cbn [snd].
  - intros cb cb' t _. apply refines_refl.
  - apply (with_children_blind
             (fun path body =>
                keepPath ("path = addToPath(path, " +++ quoted path +++ ");" +++
                          Str.nl +++ body +++ Str.nl))).
  - apply (with_children_blind
             (fun path body =>
                "if (typeof resolve(addToPath(path, " +++ quoted path +++
                "), data) !== " +++ quoted "undefined" +++ ") {" +++ Str.nl +++
                body +++ Str.nl +++ "}")).
  - apply (with_children_blind
             (fun path body =>
                keepPath ("path = addToPath(path, " +++ quoted path +++ ");" +++
                          Str.nl +++
                          "each(resolve(path, data), function (__itemPath) {" +++
                          keepPath ("path = addToPath(path, __itemPath);" +++ body) +++
                          Str.nl +++ "});"))).
  - intros cb cb' t _. apply refines_refl.
  - intros cb cb' t Hcb. now apply transformTree_mono.
Qed.

Lemma lookup_blind (name : string) (r : registry) (m : macro) :
  budget_blind_registry r -> lookup name r = Some m -> budget_blind m.
Proof.
  intros Hr. induction Hr as [|[k v] r Hv _ IH]; simpl; [discriminate|].
  destruct (String.eqb k name); [now intros [= <-] | exact IH].
Qed.

Variable o : options.
Hypothesis user_macros_blind : budget_blind_registry (macros o).

Lemma transform_step (fuel : nat) :
  callback_le (transform o fuel) (transform o (S fuel)).
Proof.
  induction fuel as [|fuel IH]; intros t; [now left|].
  destruct t as [|[s|u] rest]; try apply refines_refl.
  rewrite (transform_node o (S fuel)), (transform_node o fuel). cbv zeta.
  destruct (lookup (fst (take_arg s)) (macros o)) as [m|] eqn:Huser.
  - now apply (lookup_blind _ _ m user_macros_blind Huser).
  - destruct (lookup (fst (take_arg s)) nativeMacros) as [m|] eqn:Hnative.
    + now apply (lookup_blind _ _ m nativeMacros_blind Hnative).
    + apply refines_refl.
Qed.

Lemma transform_mono (fuel fuel' : nat) :
  fuel <= fuel' -> callback_le (transform o fuel) (transform o fuel').
Proof.
  induction 1 as [|fuel' _ IH]; intros t; [apply refines_refl|].
  eapply refines_trans; [apply IH | apply transform_step].
Qed.

Lemma compile_mono (rt : list string) (input : string) (fuel fuel' : nat) :
  fuel <= fuel' -> refines (compile rt fuel input o) (compile rt fuel' input o).
Proof.
  intros Hle. unfold compile. apply refines_bind; [apply refines_refl|].
  intros t. apply refines_bind; [now apply transform_mono|].
  intros [c t']. apply refines_refl.
Qed.


End BudgetFacts.


(** With the bundled macros only, the function [compile] returns has the
    text of the statements [gen] gives. *)
Lemma compile_printed (rt : list string) (input : string) (o : options)
  (t : tree) (body : Code.block) (fuel : nat) :
  macros o = [] ->
  parse ("out " +++ input) o = Ok t ->
  Gen.gen Gen.current o t = Ok body ->
  height (Sub t) <= fuel ->
  compile rt fuel input o = Ok (wrapTemplate rt (Code.print body) o).
Proof.
  intros Hnone Hparse Hgen Hfuel. unfold compile. rewrite Hparse. cbn [bind].
  pose proof (transform_printed o Hnone fuel t Hfuel) as H.
  rewrite Hgen in H. destruct H as (t' & ->). reflexivity.
Qed.

(* ================================================================= *)
(** * Further properties *)

(** ** [parse]: the result by the braces of the input *)

(** X1: what [parse] ends with is settled by the braces of the input
    alone.  Balanced braces give a tree; a [{] left open gives the error
    "Unmatched curly bracket" with the file of the options after it; a [}]
    with nothing open gives the [TypeError] of [parent.push] on
    [undefined]. *)
Theorem parse_outcome (str : string) (o : options) :
  match depth_after str 0 with
  | Some O => exists t, parse str o = Ok t
  | Some (S _) =>
      parse str o =
      Throw (Error ("Unmatched curly bracket" +++ Str.nl +++ "File: " +++
                    show_file (file o)))
  | None =>
      parse str o = Throw (TypeError "Cannot read property 'push' of undefined")
  end.
Proof.
  unfold parse.
  pose proof (parse_loop_spec str [Str ""] [] (last_is_str_single "")) as H.
  cbn [List.length] in H.
  destruct (depth_after str 0) as [[|d]|].
  - destruct H as (c' & s' & -> & Hlen & _). cbn [bind].
    destruct s'; [eauto | discriminate].
  - destruct H as (c' & s' & -> & Hlen & _). cbn [bind].
    destruct s'; [discriminate | reflexivity].
  - now rewrite H.
Qed.

(** ** [parse]: the shape of the tree *)

Section ShapeFacts.

Lemma well_formed_node (s : string) (rest : tree) :
  well_formed (Sub (Str s :: rest)) = well_formed_pairs rest.
Proof. reflexivity. Qed.

Lemma well_formed_pairs_step (x : item) (s : string) (l : tree) :
  well_formed_pairs (x :: Str s :: l) =
  match x with
  | Sub _ => well_formed x && well_formed_pairs l
  | Str _ => false
  end.
Proof. reflexivity. Qed.

(** A list of pairs is empty or starts with a pair. *)
Lemma well_formed_pairs_inv (l : tree) :
  well_formed_pairs l = true ->
  l = [] \/
  exists c s l', l = Sub c :: Str s :: l' /\
                 well_formed (Sub c) = true /\ well_formed_pairs l' = true.
Proof.
  destruct l as [|x [|[s|u] l']]; try discriminate; [now left|].
  rewrite well_formed_pairs_step. destruct x as [s0|c]; [discriminate|].
  intros H. apply andb_true_iff in H. right. exists c, s, l'. tauto.
Qed.

Lemma well_formed_pairs_closed (n : nat) :
  forall l c, List.length l <= n ->
    well_formed_pairs l = true -> well_formed (Sub c) = true ->
    well_formed_pairs (l ++ [Sub c; Str ""]) = true.
Proof.
  induction n as [|n IH]; intros l c Hlen Hl Hc.
  - destruct l; [|simpl in Hlen; lia]. simpl app.
    rewrite well_formed_pairs_step, Hc. reflexivity.
  - destruct (well_formed_pairs_inv l Hl) as [-> | (c1 & s1 & l' & -> & Hc1 & Hl')].
    + simpl app. rewrite well_formed_pairs_step, Hc. reflexivity.
    + change ((Sub c1 :: Str s1 :: l') ++ [Sub c; Str ""]) with
        (Sub c1 :: Str s1 :: (l' ++ [Sub c; Str ""])).
      rewrite well_formed_pairs_step, Hc1. cbn [andb].
      apply IH; [simpl in Hlen; lia | exact Hl' | exact Hc].
Qed.

Lemma add_to_last_pairs (n : nat) :
  forall s l ch, List.length l <= n ->
    well_formed_pairs l = true ->
    exists s' l', add_to_last (Str s :: l) ch = Str s' :: l' /\
                  well_formed_pairs l' = true.
Proof.
  induction n as [|n IH]; intros s l ch Hlen Hl.
  - destruct l; [|simpl in Hlen; lia]. simpl. eauto.
  - destruct (well_formed_pairs_inv l Hl) as [-> | (c1 & s1 & l' & -> & Hc1 & Hl')].
    + simpl. eauto.
    + destruct (IH s1 l' ch) as (s2 & l2 & Heq & Hl2);
        [simpl in Hlen; lia | exact Hl' |].
      exists s, (Sub c1 :: Str s2 :: l2). split.
      * change (add_to_last (Str s :: Sub c1 :: Str s1 :: l') ch) with
          (Str s :: Sub c1 :: add_to_last (Str s1 :: l') ch).
        now rewrite Heq.
      * rewrite well_formed_pairs_step, Hc1. exact Hl2.
Qed.

Lemma well_formed_add (current : tree) (ch : ascii) :
  well_formed (Sub current) = true ->
  well_formed (Sub (add_to_last current ch)) = true.
Proof.
  destruct current as [|[s|u] l]; try discriminate.
  rewrite well_formed_node. intros Hl.
  destruct (add_to_last_pairs (List.length l) s l ch (le_n _) Hl)
    as (s' & l' & -> & Hl').
  now rewrite well_formed_node.
Qed.

Lemma well_formed_close (parent current : tree) :
  well_formed (Sub parent) = true -> well_formed (Sub current) = true ->
  well_formed (Sub (parent ++ [Sub current; Str ""])) = true.
Proof.
  destruct parent as [|[s|u] l]; try discriminate.
  rewrite well_formed_node. intros Hl Hc.
  change ((Str s :: l) ++ [Sub current; Str ""]) with
    (Str s :: (l ++ [Sub current; Str ""])).
  rewrite well_formed_node.
  now apply (well_formed_pairs_closed (List.length l)).
Qed.

Lemma parse_loop_well_formed (str : string) :
  forall current stack current' stack',
    well_formed (Sub current) = true ->
    Forall (fun p => well_formed (Sub p) = true) stack ->
    parse_loop str current stack = Ok (current', stack') ->
    well_formed (Sub current') = true.
Proof.
  induction str as [|ch rest IH]; intros current stack current' stack' Hc Hs; simpl.
  - now intros [= <- _].
  - destruct (Ascii.eqb ch "{").
    + apply IH; [reflexivity | now constructor].
    + destruct (Ascii.eqb ch "}").
      * destruct stack as [|parent below]; [discriminate|].
        inversion Hs as [|? ? Hp Hbelow]; subst.
        apply IH; [now apply well_formed_close | exact Hbelow].
      * apply IH; [now apply well_formed_add | exact Hs].
Qed.

End ShapeFacts.

Lemma parse_shape (str : string) (o : options) (t : tree) :
  parse str o = Ok t -> well_formed (Sub t) = true.
Proof.
  unfold parse. intros H.
  destruct (parse_loop str [Str ""] []) as [[current stack]| |] eqn:Hloop;
    try discriminate.
  cbn [bind] in H. destruct stack; [|discriminate]. injection H as <-.
  now apply (parse_loop_well_formed str [Str ""] [] current []).
Qed.

(** X2: every array in a tree that [parse] returns starts with a string
    slot, and after it come nested arrays, each followed by a string slot:
    the slots for text are there also where the text is empty. *)
Theorem parse_well_formed (str : string) (o : options) (t : tree) :
  parse str o = Ok t -> well_formed (Sub t) = true.
Proof. exact (parse_shape str o t). Qed.

Lemma parse_well_formed_witness :
  parse "a{b {c}d}{}e" no_options =
    Ok [Str "a"; Sub [Str "b "; Sub [Str "c"]; Str "d"]; Str ""; Sub [Str ""]; Str "e"] /\
  well_formed
    (Sub [Str "a"; Sub [Str "b "; Sub [Str "c"]; Str "d"]; Str ""; Sub [Str ""]; Str "e"])
  = true.
Proof.
  split; [reflexivity|].
  exact (parse_well_formed "a{b {c}d}{}e" no_options _ eq_refl).
Defined.

(* ================================================================= *)
(** ** [parseArg]: the token and the rest *)

Section ArgFacts.

Lemma prefix_then_rest (s : string) :
  s = non_space_prefix s +++ substr s (String.length (non_space_prefix s)).
Proof.
  induction s as [|c s IH]; simpl; [reflexivity|].
  destruct (is_space c); simpl; [reflexivity | now rewrite <- IH].
Qed.

Lemma spaces_then_rest (s : string) :
  exists ws, blank ws = true /\ s = ws +++ drop_spaces s.
Proof.
  induction s as [|c s (ws & Hws & IH)]; simpl.
  - now exists "".
  - destruct (is_space c) eqn:Hc.
    + exists (String c ws). simpl. rewrite Hc, Hws. split; [reflexivity|].
      now rewrite <- IH.
    + now exists "".
Qed.

Lemma non_space_prefix_no_space (s : string) : no_space (non_space_prefix s) = true.
Proof.
  induction s as [|c s IH]; simpl; [reflexivity|].
  destruct (is_space c) eqn:Hc; simpl; [reflexivity | now rewrite Hc].
Qed.

Lemma drop_spaces_done (s : string) : drop_spaces (drop_spaces s) = drop_spaces s.
Proof.
  induction s as [|c s IH]; simpl; [reflexivity|].
  destruct (is_space c) eqn:Hc; [exact IH | simpl; now rewrite Hc].
Qed.

End ArgFacts.

(** X3: [parseArg] cuts the first slot in three: the token it returns,
    which has no white space in it; white space, which is dropped; and the
    rest, which is what it leaves in the slot and which does not start with
    white space.  Nothing else of the slot is lost. *)
Theorem take_arg_parts (s : string) :
  exists ws,
    blank ws = true /\
    s = fst (take_arg s) +++ ws +++ snd (take_arg s) /\
    no_space (fst (take_arg s)) = true /\
    drop_spaces (snd (take_arg s)) = snd (take_arg s).
Proof.
  unfold take_arg; cbn [fst snd].
  destruct (spaces_then_rest (substr s (String.length (non_space_prefix s))))
    as (ws & Hws & Hrest).
  exists ws. split; [exact Hws|]. split; [|split].
  - rewrite <- Hrest. apply prefix_then_rest.
  - apply non_space_prefix_no_space.
  - apply drop_spaces_done.
Qed.

(* ================================================================= *)
(** ** [escapeJS] *)

Section EscapeFacts.

Lemma string_app_length (a b : string) :
  String.length (a +++ b) = String.length a + String.length b.
Proof. induction a as [|x a IH]; simpl; [reflexivity | now rewrite IH]. Qed.

Lemma replace_all_app (c : ascii) (by_ a b : string) :
  replace_all c by_ (a +++ b) = replace_all c by_ a +++ replace_all c by_ b.
Proof.
  induction a as [|x a IH]; simpl; [reflexivity|].
  now rewrite IH, StrFacts.app_assoc.
Qed.

Lemma escape_each_app (a b : string) :
  escape_each (a +++ b) = escape_each a +++ escape_each b.
Proof.
  induction a as [|x a IH]; simpl; [reflexivity|].
  now rewrite IH, StrFacts.app_assoc.
Qed.

Lemma escape_one (x : ascii) :
  replace_all (ascii_of_nat 10) (Str.backslash +++ "n")
    (replace_all (ascii_of_nat 39) (Str.backslash +++ Str.squote)
       (if Ascii.eqb x (ascii_of_nat 34) then Str.backslash +++ Str.dquote
        else Str.char x)) = escape_char x.
Proof.
  unfold escape_char.
  destruct (Ascii.eqb x (ascii_of_nat 34)) eqn:H34; [reflexivity|].
  cbn [Str.char replace_all].
  destruct (Ascii.eqb x (ascii_of_nat 39)) eqn:H39; [reflexivity|].
  cbn [Str.char replace_all String.append].
  destruct (Ascii.eqb x (ascii_of_nat 10)) eqn:H10; reflexivity.
Qed.

(** The three replacements of [escapeJS], one after the other, do what one
    pass over the characters does: what one of them puts in is not touched
    by the next. *)
Lemma escapeJS_each (s : string) : escapeJS s = escape_each s.
Proof.
  induction s as [|x s IH]; [reflexivity|].
  unfold escapeJS in *. cbn [replace_all escape_each].
  rewrite !replace_all_app, IH. now rewrite escape_one.
Qed.

Lemma literal_body_each (s : string) :
  has_char (ascii_of_nat 92) s = false -> literal_body (escape_each s) = true.
Proof.
  induction s as [|x s IH]; [reflexivity|].
  cbn [has_char escape_each]. intros H. apply orb_false_iff in H.
  destruct H as [Hx Hs]. specialize (IH Hs). unfold escape_char.
  destruct (Ascii.eqb x (ascii_of_nat 34)) eqn:H34; [exact IH|].
  destruct (Ascii.eqb x (ascii_of_nat 39)) eqn:H39; [exact IH|].
  destruct (Ascii.eqb x (ascii_of_nat 10)) eqn:H10; [exact IH|].
  cbn [Str.char String.append literal_body]. now rewrite Hx, H34, H39, H10, IH.
Qed.

Lemma literal_body_dangling (s : string) :
  has_char (ascii_of_nat 92) s = false ->
  literal_body (escape_each s +++ Str.backslash) = false.
Proof.
  induction s as [|x s IH]; [reflexivity|].
  cbn [has_char escape_each]. intros H. apply orb_false_iff in H.
  destruct H as [Hx Hs]. specialize (IH Hs). unfold escape_char.
  destruct (Ascii.eqb x (ascii_of_nat 34)) eqn:H34; [exact IH|].
  destruct (Ascii.eqb x (ascii_of_nat 39)) eqn:H39; [exact IH|].
  destruct (Ascii.eqb x (ascii_of_nat 10)) eqn:H10; [exact IH|].
  cbn [Str.char String.append literal_body]. now rewrite Hx, H34, H39, H10, IH.
Qed.

End EscapeFacts.



Lemma escape_each_length (s : string) :
  String.length (escape_each s) = String.length s + escaped_count s.
Proof.
  induction s as [|x s IH]; [reflexivity|].
  cbn [escape_each escaped_count String.length].
  rewrite string_app_length, IH. unfold escape_char.
  destruct (Ascii.eqb x (ascii_of_nat 34)); [simpl; lia|].
  destruct (Ascii.eqb x (ascii_of_nat 39)); [simpl; lia|].
  destruct (Ascii.eqb x (ascii_of_nat 10)); simpl; lia.
Qed.

(** X5: the three replacements of [escapeJS] do not get in each other's
    way: together they are one pass that puts a backslash before every
    double quote and single quote, writes a line feed as backslash and [n],
    and keeps every other character.  So the escaped form of two texts put
    together is the two escaped forms put together, and its length is that
    of the text plus one for every quote and line feed. *)
Theorem escapeJS_one_pass (a b : string) :
  escapeJS a = escape_each a /\
  escapeJS (a +++ b) = escapeJS a +++ escapeJS b /\
  String.length (escapeJS a) = String.length a + escaped_count a.
Proof.
  rewrite !escapeJS_each. split; [reflexivity|]. split.
  - apply escape_each_app.
  - apply escape_each_length.
Qed.

(* ================================================================= *)
(** ** [compile] on a template without macros *)

Section PlainFacts.

Lemma parse_loop_brace_free (s : string) :
  brace_free s = true ->
  forall a, parse_loop s [Str a] [] = Ok ([Str (a +++ s)], []).
Proof.
  induction s as [|ch rest IH]; intros Hfree a; simpl.
  - now rewrite StrFacts.app_nil_r.
  - simpl in Hfree. apply andb_true_iff in Hfree. destruct Hfree as [Hch Hrest].
    apply andb_true_iff in Hch. destruct Hch as [Ho Hc].
    apply negb_true_iff in Ho, Hc. rewrite Ho, Hc.
    rewrite (IH Hrest). now rewrite StrFacts.app_assoc.
Qed.

Lemma parse_brace_free (s : string) (o : options) :
  brace_free s = true -> parse s o = Ok [Str s].
Proof.
  intros Hfree. unfold parse. now rewrite (parse_loop_brace_free s Hfree "").
Qed.

End PlainFacts.



(* ================================================================= *)
(** ** [compile] with the bundled macros only *)

Section BundledOnly.
Variable o : options.
Hypothesis no_user_macros : macros o = [].

Lemma well_formed_pairs_all (n : nat) :
  forall l, List.length l <= n -> well_formed_pairs l = true ->
            Forall is_text_or_node l.
Proof.
  induction n as [|n IH]; intros l Hlen Hl.
  - destruct l; [constructor | simpl in Hlen; lia].
  - destruct (well_formed_pairs_inv l Hl) as [-> | (c & s & l' & -> & Hc & Hl')].
    + constructor.
    + constructor; [exact Hc|]. constructor; [exact I|].
      apply IH; [simpl in Hlen; lia | exact Hl'].
Qed.

Lemma among_stays (l : tree) :
  Forall (fun x => is_text_or_node x -> first_unknown o x <> LeavesBundled) l ->
  Forall is_text_or_node l ->
  first_unknown_among o l <> LeavesBundled.
Proof.
  induction 1 as [|x l Hx _ IH]; intros Hall; simpl; [discriminate|].
  inversion Hall as [|? ? Hx' Hl']; subst. specialize (Hx Hx').
  destruct (first_unknown o x); [now apply IH | discriminate | congruence].
Qed.

(** On a tree of [parse], the walk does not leave the bundled macros. *)
Lemma walk_stays (i : item) :
  is_text_or_node i -> first_unknown o i <> LeavesBundled.
Proof.
  induction i as [s|t IH] using item_ind'; intros Hwf; [discriminate|].
  destruct t as [|[s|u] rest]; try discriminate.
  rewrite first_unknown_node. cbv zeta. rewrite no_user_macros. cbn [lookup].
  destruct (transforms_children (fst (take_arg s))).
  - inversion IH as [|? ? _ Hrest]; subst.
    apply among_stays; [exact Hrest|].
    simpl in Hwf. apply (well_formed_pairs_all (List.length rest)); [lia | exact Hwf].
  - destruct (ignores_children (fst (take_arg s))); discriminate.
Qed.

Lemma among_names (l : tree) (name : string) :
  Forall (fun x => first_unknown o x = FirstUnknown name ->
                   In name (names_in x) /\ registered o name = false) l ->
  first_unknown_among o l = FirstUnknown name ->
  In name (flat_map names_in l) /\ registered o name = false.
Proof.
  induction 1 as [|x l Hx _ IH]; simpl; [discriminate|].
  destruct (first_unknown o x) eqn:Hfx.
  - intros H. destruct (IH H) as [Hin Hreg]. split; [|exact Hreg].
    apply in_or_app. now right.
  - intros [= ->]. destruct (Hx eq_refl) as [Hin Hreg]. split; [|exact Hreg].
    apply in_or_app. now left.
  - discriminate.
Qed.

(** The name the walk stops at is the name of a node of the tree, and it
    is in neither table. *)
Lemma walk_names (i : item) (name : string) :
  first_unknown o i = FirstUnknown name ->
  In name (names_in i) /\ registered o name = false.
Proof.
  induction i as [s|t IH] using item_ind'; [discriminate|].
  destruct t as [|[s|u] rest]; try discriminate.
  rewrite first_unknown_node. cbv zeta.
  destruct (lookup (fst (take_arg s)) (macros o)) eqn:Huser; [discriminate|].
  destruct (transforms_children (fst (take_arg s))) eqn:Htc.
  - intros H. inversion IH as [|? ? _ Hrest]; subst.
    destruct (among_names rest name Hrest H) as [Hin Hreg]. split; [|exact Hreg].
    cbn [names_in macro_name]. right. cbn [flat_map names_in].
    exact Hin.
  - destruct (ignores_children (fst (take_arg s))) eqn:Hic; [discriminate|].
    intros [= <-]. split.
    + cbn [names_in macro_name]. now left.
    + change (non_space_prefix s) with (fst (take_arg s)).
      unfold registered. now rewrite Huser, (unknown_not_native _ Htc Hic).
Qed.

Lemma compile_bundled_cases (rt : list string) (input : string) (t : tree)
  (fuel : nat) :
  parse ("out " +++ input) o = Ok t ->
  height (Sub t) <= fuel ->
  (exists c, compile rt fuel input o = Ok c) \/
  (exists name,
     In name (names_in (Sub t)) /\ registered o name = false /\
     compile rt fuel input o =
     Throw (Error (("Not a macro: " +++ quoted name) +++ Str.nl +++ "File: " +++
                   show_file (file o)))).
Proof.
  intros Hparse Hfuel.
  pose proof (transform_reach o fuel t Hfuel) as Hreach.
  pose proof (walk_stays (Sub t) (parse_shape _ _ _ Hparse)) as Hstay.
  destruct (first_unknown o (Sub t)) as [|name|] eqn:Hwalk; [| |congruence].
  - left. destruct Hreach as (c & t' & Hrun).
    unfold compile. rewrite Hparse. cbn [bind]. rewrite Hrun. cbn [bind]. eauto.
  - right. exists name. destruct (walk_names (Sub t) name Hwalk) as [Hin Hreg].
    split; [exact Hin|]. split; [exact Hreg|].
    now apply (compile_reach rt input o t name fuel).
Qed.

End BundledOnly.







(* ================================================================= *)
(** ** [resolve]: what it returns *)

Section ResolveMore.
Import Js Runtime.

Lemma resolve_loop_result (parts : list string) :
  forall obj, truthy obj = true ->
    exists v, resolve_loop obj parts = Ok v /\ (truthy v = true \/ v = VUndef).
Proof.
  induction parts as [|part parts IH]; intros obj Hobj; simpl; [eauto|].
  destruct (get_defined obj part Hobj) as [next ->]. cbn [bind].
  destruct (truthy next) eqn:Hnext; [now apply IH | eauto].
Qed.

Lemma split_dots_app (a b : string) :
  forall acc,
    split_dots acc (a +++ "." +++ b) = split_dots acc a ++ split_dots "" b.
Proof.
  induction a as [|c a IH]; intros acc; [reflexivity|].
  cbn [String.append split_dots]. destruct (Ascii.eqb c "."); [|apply IH].
  cbn [app]. now rewrite IH.
Qed.

Lemma parts_of_app (a b : string) :
  parts_of (a +++ "." +++ b) = parts_of a ++ parts_of b.
Proof. unfold parts_of. now rewrite split_dots_app, filter_app. Qed.

Lemma parts_of_dots (s : string) : dots_only s = true -> parts_of s = [].
Proof.
  unfold parts_of. induction s as [|c s IH]; [reflexivity|].
  cbn [dots_only split_dots]. intros H. apply andb_true_iff in H.
  destruct H as [Hc Hs]. rewrite Hc. cbn [filter String.eqb negb]. now apply IH.
Qed.

Lemma resolve_loop_app (ps qs : list string) :
  forall obj v, resolve_loop obj ps = Ok v -> truthy v = true ->
                resolve_loop obj (ps ++ qs) = resolve_loop v qs.
Proof.
  induction ps as [|p ps IH]; intros obj v Hrun Hv; simpl in *.
  - now injection Hrun as <-.
  - destruct (get obj p) as [next| |]; cbn [bind] in *; try discriminate.
    destruct (truthy next); [now apply IH|].
    injection Hrun as <-. discriminate.
Qed.

End ResolveMore.

(** X10: with [data] truthy, as it is after [data = data || {}], [resolve]
    returns for every path a value, and that value is truthy or it is
    [undefined]: a property that is there with a falsy value comes back as
    [undefined] too, and reading on past a missing or falsy property never
    throws. *)
Theorem resolve_result (data : Js.value) (path : string) :
  Js.truthy data = true ->
  exists v, Runtime.resolve data path = Ok v /\
            (Js.truthy v = true \/ v = Js.VUndef).
Proof. intros Hdata. unfold Runtime.resolve. now apply resolve_loop_result. Qed.

Lemma resolve_result_witness :
  let data := Js.VObj [("a", Js.VObj [("n", Js.VNum 0)] [])] [] in
  Js.truthy data = true /\
  exists v, Runtime.resolve data ".a.n.deeper.still" = Ok v /\
            (Js.truthy v = true \/ v = Js.VUndef).
Proof.
  intros data. split; [reflexivity|].
  exact (resolve_result data ".a.n.deeper.still" eq_refl).
Defined.

(** X11: a path of dots only, the empty path among them, resolves to
    [data] itself, and dots at the start or the end of a path, or doubled
    inside it, change nothing: only the non-empty parts between dots are
    looked up. *)
Theorem resolve_dots (data : Js.value) (dots path more : string) :
  dots_only dots = true ->
  Runtime.resolve data dots = Ok data /\
  Runtime.resolve data (dots +++ "." +++ path) = Runtime.resolve data path /\
  Runtime.resolve data (path +++ "." +++ dots) = Runtime.resolve data path /\
  Runtime.resolve data (path +++ "." +++ dots +++ "." +++ more) =
    Runtime.resolve data (path +++ "." +++ more).
Proof.
  intros Hdots. unfold Runtime.resolve.
  rewrite !parts_of_app, (parts_of_dots dots Hdots).
  cbn [app]. rewrite List.app_nil_r. repeat split; reflexivity.
Qed.

Lemma resolve_dots_witness :
  let data := Js.VObj [("a", Js.VStr "x")] [] in
  dots_only ".." = true /\
  Runtime.resolve data ".." = Ok data /\
  Runtime.resolve data (".." +++ "." +++ "a") = Runtime.resolve data "a".
Proof.
  intros data. split; [reflexivity|].
  pose proof (resolve_dots data ".." "a" "" eq_refl) as H.
  exact (conj (proj1 H) (proj1 (proj2 H))).
Defined.

(** X12: resolving goes step by step: when a path leads to a truthy
    value, a longer path that goes on from there with a dot resolves to
    what the rest of it resolves to from that value.  This is what lets
    [->] and [each] add to [path] instead of keeping the value they are
    at. *)
Theorem resolve_compose (data v : Js.value) (path more : string) :
  Runtime.resolve data path = Ok v ->
  Js.truthy v = true ->
  Runtime.resolve data (path +++ "." +++ more) = Runtime.resolve v more.
Proof.
  unfold Runtime.resolve. intros Hrun Hv. rewrite parts_of_app.
  now apply resolve_loop_app.
Qed.

Lemma resolve_compose_witness :
  let page := Js.VObj [("title", Js.VStr "Home")] [] in
  let data := Js.VObj [("pages", Js.VArr [page])] [] in
  Runtime.resolve data ".pages.0" = Ok page /\
  Js.truthy page = true /\
  Runtime.resolve data (".pages.0" +++ "." +++ "title") = Runtime.resolve page "title".
Proof.
  intros page data. split; [reflexivity|]. split; [reflexivity|].
  exact (resolve_compose data page ".pages.0" "title" eq_refl eq_refl).
Defined.

(* ================================================================= *)
(** ** [parsePath] of the bundled build *)

Section NormalPathFacts.
Import Js Runtime Bundle.

Lemma has_char_app (c : ascii) (a b : string) :
  has_char c (a +++ b) = has_char c a || has_char c b.
Proof.
  induction a as [|x a IH]; simpl; [reflexivity|].
  now rewrite IH, orb_assoc.
Qed.

Lemma dots_for_brackets_no_bracket (n : nat) :
  forall s, String.length s <= n ->
    has_char "[" (dots_for_brackets s) = false /\
    has_char "]" (dots_for_brackets s) = false.
Proof.
  induction n as [|n IH]; intros s Hlen.
  - destruct s; [now split | simpl in Hlen; lia].
  - destruct s as [|c rest]; [now split|].
    assert (Hrest : String.length rest <= n) by (simpl in Hlen; lia).
    cbn [dots_for_brackets].
    destruct (Ascii.eqb c "[") eqn:Hopen.
    + destruct rest as [|q rest']; [now split|].
      destruct (Ascii.eqb q (ascii_of_nat 34)).
      * apply (IH rest'). simpl in Hrest. lia.
      * apply (IH (String q rest') Hrest).
    + destruct (Ascii.eqb c "]") eqn:Hclose; [apply (IH rest Hrest)|].
      destruct (Ascii.eqb c (ascii_of_nat 34)).
      * destruct rest as [|b rest']; [simpl; now rewrite Hopen, Hclose|].
        destruct (Ascii.eqb b "]").
        -- apply (IH rest'). simpl in Hrest. lia.
        -- cbn [has_char]. rewrite Hopen, Hclose. apply (IH (String b rest') Hrest).
      * cbn [has_char]. rewrite Hopen, Hclose. apply (IH rest Hrest).
Qed.

Lemma has_char_dot_in_front (c : ascii) (s : string) :
  Ascii.eqb "." c = false -> has_char c (dot_in_front s) = has_char c s.
Proof.
  intros Hc. destruct s as [|x s]; [reflexivity|].
  unfold dot_in_front. destruct (Ascii.eqb x "."); [reflexivity|].
  cbn [String.append has_char]. now rewrite Hc.
Qed.

Lemma has_char_no_dot_at_end (c : ascii) (s : string) :
  has_char c s = false -> has_char c (no_dot_at_end s) = false.
Proof.
  induction s as [|x s IH]; [reflexivity|].
  cbn [has_char]. intros H. apply orb_false_iff in H. destruct H as [Hx Hs].
  destruct s as [|y s'].
  - cbn [no_dot_at_end]. destruct (Ascii.eqb x "."); [reflexivity|].
    cbn [has_char]. now rewrite Hx.
  - change (no_dot_at_end (String x (String y s')))
      with (String x (no_dot_at_end (String y s'))).
    cbn [has_char]. rewrite Hx. now apply IH.
Qed.

Lemma normal_path_front (s : string) :
  no_dot_at_end (dot_in_front s) = "" \/
  starts_with_dot (no_dot_at_end (dot_in_front s)) = true.
Proof.
  destruct s as [|x s]; [now left|].
  unfold dot_in_front. destruct (Ascii.eqb x ".") eqn:Hx.
  - destruct s as [|y s']; [left; simpl; now rewrite Hx|].
    right. change (no_dot_at_end (String x (String y s')))
             with (String x (no_dot_at_end (String y s'))).
    exact Hx.
  - right. reflexivity.
Qed.

Lemma parts_of_dot_in_front (s : string) : parts_of (dot_in_front s) = parts_of s.
Proof.
  destruct s as [|x s]; [reflexivity|].
  unfold dot_in_front. destruct (Ascii.eqb x "."); reflexivity.
Qed.

Lemma parts_of_no_dot_at_end (s : string) :
  forall acc,
    filter (fun part => negb (String.eqb part "")) (split_dots acc (no_dot_at_end s)) =
    filter (fun part => negb (String.eqb part "")) (split_dots acc s).
Proof.
  induction s as [|x s IH]; intros acc; [reflexivity|].
  destruct s as [|y s'].
  - cbn [no_dot_at_end]. destruct (Ascii.eqb x ".") eqn:Hx; [|reflexivity].
    cbn [split_dots]. rewrite Hx. cbn [filter String.eqb negb].
    reflexivity.
  - change (no_dot_at_end (String x (String y s')))
      with (String x (no_dot_at_end (String y s'))).
    cbn [split_dots]. destruct (Ascii.eqb x ".").
    + cbn [filter]. now rewrite IH.
    + apply IH.
Qed.

Lemma normal_path_parts (arg : string) :
  parts_of (normal_path arg) = parts_of (dots_for_brackets arg).
Proof.
  unfold normal_path. unfold parts_of at 1. rewrite parts_of_no_dot_at_end.
  apply parts_of_dot_in_front.
Qed.

Lemma dots_for_brackets_plain (a rest : string) :
  plain_path a = true ->
  dots_for_brackets (a +++ rest) = a +++ dots_for_brackets rest.
Proof.
  induction a as [|c a IH]; [reflexivity|].
  cbn [plain_path]. intros H. apply andb_true_iff in H. destruct H as [H Ha].
  apply andb_true_iff in H. destruct H as [H Hq].
  apply andb_true_iff in H. destruct H as [Ho Hc].
  apply negb_true_iff in Ho, Hc, Hq.
  cbn [String.append dots_for_brackets]. rewrite Ho, Hc, Hq. now rewrite IH.
Qed.

Lemma dots_for_brackets_open (q : ascii) (rest : string) :
  dots_for_brackets (String "[" (String q rest)) =
  if Ascii.eqb q (ascii_of_nat 34) then "." +++ dots_for_brackets rest
  else "." +++ dots_for_brackets (String q rest).
Proof. reflexivity. Qed.

Lemma dots_for_brackets_index (i rest : string) :
  plain_path i = true ->
  dots_for_brackets ("[" +++ i +++ "]" +++ rest) =
  "." +++ i +++ "." +++ dots_for_brackets rest.
Proof.
  intros Hi.
  assert (Hin : dots_for_brackets (i +++ "]" +++ rest) =
                i +++ "." +++ dots_for_brackets rest).
  { rewrite (dots_for_brackets_plain i _ Hi). reflexivity. }
  destruct i as [|q i'].
  - reflexivity.
  - cbn [plain_path] in Hi. apply andb_true_iff in Hi. destruct Hi as [H _].
    apply andb_true_iff in H. destruct H as [_ Hq]. apply negb_true_iff in Hq.
    change ("[" +++ String q i' +++ "]" +++ rest)
      with (String "[" (String q (i' +++ "]" +++ rest))).
    rewrite dots_for_brackets_open, Hq.
    change (String q (i' +++ "]" +++ rest)) with (String q i' +++ "]" +++ rest).
    now rewrite Hin.
Qed.

End NormalPathFacts.

(** X13: the path [parsePath] of the bundled build gives is empty or
    starts with a dot, and has no bracket left in it. *)
Theorem normal_path_shape (arg : string) :
  (Bundle.normal_path arg = "" \/ starts_with_dot (Bundle.normal_path arg) = true) /\
  has_char "[" (Bundle.normal_path arg) = false /\
  has_char "]" (Bundle.normal_path arg) = false.
Proof.
  unfold Bundle.normal_path. split; [apply normal_path_front|].
  destruct (dots_for_brackets_no_bracket (String.length arg) arg (le_n _))
    as [Hopen Hclose].
  split; apply has_char_no_dot_at_end; rewrite has_char_dot_in_front;
    auto.
Qed.

(** X14: for a token without bracket and quote, the dot [parsePath] puts
    in front and the dot it takes from the end make no difference to
    [resolve]: [{. title}], [{. .title}] and [{. title.}] read the same
    property. *)
Theorem normal_path_plain (data : Js.value) (arg : string) :
  plain_path arg = true ->
  Runtime.resolve data (Bundle.normal_path arg) = Runtime.resolve data arg.
Proof.
  intros Hplain. unfold Runtime.resolve. rewrite normal_path_parts.
  pose proof (dots_for_brackets_plain arg "" Hplain) as H.
  rewrite !StrFacts.app_nil_r in H. now rewrite H.
Qed.

Lemma normal_path_plain_witness :
  let data := Js.VObj [("page", Js.VObj [("title", Js.VStr "Home")] [])] [] in
  plain_path "page.title." = true /\
  Runtime.resolve data (Bundle.normal_path "page.title.") =
  Runtime.resolve data "page.title.".
Proof.
  intros data. split; [reflexivity|].
  exact (normal_path_plain data "page.title." eq_refl).
Defined.

(** X15: an index in brackets is a step like one after a dot: for [a],
    [i] and [b] without bracket and quote, the token with [i] in brackets
    between [a] and [b] resolves as the one with [i] between dots. *)
Theorem normal_path_index (data : Js.value) (a i b : string) :
  plain_path a = true -> plain_path i = true -> plain_path b = true ->
  Runtime.resolve data (Bundle.normal_path (a +++ "[" +++ i +++ "]" +++ b)) =
  Runtime.resolve data (a +++ "." +++ i +++ "." +++ b).
Proof.
  intros Ha Hi Hb. unfold Runtime.resolve. rewrite normal_path_parts.
  rewrite (dots_for_brackets_plain a _ Ha), (dots_for_brackets_index i b Hi).
  pose proof (dots_for_brackets_plain b "" Hb) as H.
  rewrite !StrFacts.app_nil_r in H. now rewrite H.
Qed.

Lemma normal_path_index_witness :
  let data :=
    Js.VObj [("pages", Js.VArr [Js.VNull; Js.VObj [("title", Js.VStr "Two")] []])] [] in
  plain_path "pages" = true /\ plain_path "1" = true /\ plain_path ".title" = true /\
  Runtime.resolve data (Bundle.normal_path ("pages" +++ "[" +++ "1" +++ "]" +++ ".title")) =
  Runtime.resolve data ("pages" +++ "." +++ "1" +++ "." +++ ".title").
Proof.
  intros data. split; [reflexivity|]. split; [reflexivity|]. split; [reflexivity|].
  exact (normal_path_index data "pages" "1" ".title" eq_refl eq_refl eq_refl).
Defined.

(* ================================================================= *)
(** ** What the statements do to [__out] *)

Section OutFacts.
Import Js Code RuntimeFacts.

Variable addToPath : value -> value -> outcome value.
Variable resolve : value -> value -> outcome value.

Abbreviation exec := (Code.exec addToPath resolve).
Abbreviation exec_block := (Code.exec_block addToPath resolve).
Abbreviation eval := (Code.eval addToPath resolve).

Lemma eval_prefix_out (e : expr) (item : option value) (pre : list value)
  (st : state) :
  eval e item (prefix_out pre st) = eval e item st.
Proof.
  induction e as [| |s|a IHa b IHb|e IH|a IHa b IHb|e IH]; cbn [Code.eval];
    try reflexivity.
  - now rewrite IHa, IHb.
  - now rewrite IH.
  - now rewrite IHa, IHb.
  - now rewrite IH.
Qed.

Lemma push_prefix_out (v : value) (pre : list value) (st : state) :
  push v (prefix_out pre st) = prefix_out pre (push v st).
Proof. unfold push, prefix_out. cbn. now rewrite List.app_assoc. Qed.

Lemma for_each_commute {A S} (g : S -> S) (l : list A)
  (body : A -> S -> outcome S) :
  (forall x s, body x (g s) = omap g (body x s)) ->
  forall s, Runtime.for_each l body (g s) = omap g (Runtime.for_each l body s).
Proof.
  intros Hbody. induction l as [|x l IH]; intros s; [reflexivity|].
  cbn [Runtime.for_each]. rewrite Hbody. unfold omap at 1.
  destruct (body x s) as [s1| |]; cbn [bind]; [apply IH | reflexivity | reflexivity].
Qed.

Lemma each_commute {S} (g : S -> S) (obj : value)
  (iterator : value -> value -> S -> outcome S) :
  (forall k v s, iterator k v (g s) = omap g (iterator k v s)) ->
  forall s, Runtime.each obj iterator (g s) = omap g (Runtime.each obj iterator s).
Proof.
  intros Hit s. unfold Runtime.each.
  destruct (negb (truthy obj)); [reflexivity|].
  destruct obj;
    try (apply for_each_commute; intros key s1;
         destruct (hasOwnProperty _ key); [|reflexivity];
         destruct (get _ key); cbn [bind]; [apply Hit | reflexivity | reflexivity]).
  apply for_each_commute. intros i s1. apply Hit.
Qed.

Lemma exec_block_prefix_from (body : block) :
  Forall (fun s => forall item pre st,
            exec s item (prefix_out pre st) = omap (prefix_out pre) (exec s item st))
         body ->
  forall item pre st,
    exec_block body item (prefix_out pre st) =
    omap (prefix_out pre) (exec_block body item st).
Proof.
  induction 1 as [|x l Hx _ IH]; intros item pre st; [reflexivity|].
  cbn [Code.exec_block]. rewrite Hx. unfold omap at 1.
  destruct (exec x item st) as [s1| |]; cbn [bind]; [apply IH | reflexivity | reflexivity].
Qed.

Lemma exec_prefix_out (s : stmt) :
  forall item pre st,
    exec s item (prefix_out pre st) = omap (prefix_out pre) (exec s item st).
Proof.
  induction s as [txt|e|e| |body IH|e body IH|e body IH] using stmt_ind';
    intros item pre st.
  - cbn [Code.exec]. destruct (String.eqb txt ""); [reflexivity|].
    now rewrite push_prefix_out.
  - cbn [Code.exec]. rewrite eval_prefix_out.
    destruct (eval e item st); cbn [bind omap]; try reflexivity.
    now rewrite push_prefix_out.
  - cbn [Code.exec]. rewrite eval_prefix_out.
    destruct (eval e item st); reflexivity.
  - reflexivity.
  - rewrite !exec_Scope, (exec_block_prefix_from body IH).
    destruct (exec_block body item st); reflexivity.
  - rewrite !exec_IfDefined, eval_prefix_out.
    destruct (eval e item st) as [v| |]; cbn [bind]; try reflexivity.
    destruct v; try apply (exec_block_prefix_from body IH); reflexivity.
  - rewrite !exec_Each, eval_prefix_out.
    destruct (eval e item st) as [v| |]; cbn [bind]; try reflexivity.
    apply each_commute. intros k _ s1. apply (exec_block_prefix_from body IH).
Qed.

Lemma exec_block_prefix_out (body : block) (item : option value)
  (pre : list value) (st : state) :
  exec_block body item (prefix_out pre st) =
  omap (prefix_out pre) (exec_block body item st).
Proof.
  apply exec_block_prefix_from. apply Forall_forall. intros s _. apply exec_prefix_out.
Qed.


End OutFacts.


(* ================================================================= *)
(** ** The render functions of the bundled build run to their end *)

Section BundledRun.
Import Js Code Gen Bundle RuntimeFacts.

Variable addToPath : value -> value -> outcome value.
Variable resolve : value -> value -> outcome value.

Abbreviation exec := (Code.exec addToPath resolve).
Abbreviation exec_block := (Code.exec_block addToPath resolve).
Abbreviation eval := (Code.eval addToPath resolve).
Abbreviation runs := (runs addToPath resolve).

Lemma for_each_total {A S} (I : S -> Prop) (l : list A)
  (body : A -> S -> outcome S) :
  (forall x s, I s -> exists s', body x s = Ok s' /\ I s') ->
  forall s, I s -> exists s', Runtime.for_each l body s = Ok s' /\ I s'.
Proof.
  intros Hbody. induction l as [|x l IH]; intros s Hs; cbn [Runtime.for_each]; [eauto|].
  destruct (Hbody x s Hs) as (s1 & -> & Hs1). cbn [bind]. now apply IH.
Qed.

Lemma each_total {S} (I : S -> Prop) (obj : value)
  (iterator : value -> value -> S -> outcome S) :
  (forall k v s, I s -> exists s', iterator k v s = Ok s' /\ I s') ->
  forall s, I s -> exists s', Runtime.each obj iterator s = Ok s' /\ I s'.
Proof.
  intros Hit s Hs. unfold Runtime.each.
  destruct (truthy obj) eqn:Hobj; cbn [negb]; [|eauto].
  destruct obj;
    try (apply for_each_total; [|exact Hs]; intros key s1 Hs1;
         destruct (hasOwnProperty _ key); [|eauto];
         destruct (get_defined _ key Hobj) as [v ->]; cbn [bind]; now apply Hit).
  apply for_each_total; [|exact Hs]. intros i s1 Hs1. now apply Hit.
Qed.

Lemma plus_text_right (v : value) (s : string) :
  plus v (VStr s) = VStr (to_string v +++ s).
Proof. unfold plus. now destruct v. Qed.

Lemma plus_text_left (s : string) (v : value) :
  plus (VStr s) v = VStr (s +++ to_string v).
Proof. reflexivity. Qed.

Lemma good_push (v : value) (st : state) : good st -> good (push v st).
Proof. intros [Hd Hp]. now split. Qed.

Lemma good_set_path (p : string) (st : state) : good st -> good (set_path (VStr p) st).
Proof. intros [Hd _]. split; [exact Hd | now exists p]. Qed.

Lemma runs_nil : runs [].
Proof. intros item st Hst. now exists st. Qed.

Lemma runs_app (a b : block) : runs a -> runs b -> runs (a ++ b).
Proof.
  intros Ha Hb item st Hst. rewrite exec_block_app.
  destruct (Ha item st Hst) as (s1 & -> & H1). cbn [bind]. now apply Hb.
Qed.

Lemma runs_cons (x : stmt) (b : block) : runs [x] -> runs b -> runs (x :: b).
Proof. intros Hx Hb. now apply (runs_app [x] b). Qed.

Lemma runs_text (s : string) : runs [PushText s].
Proof.
  intros item st Hst. cbn [Code.exec_block Code.exec bind].
  destruct (String.eqb s ""); eexists; split; try reflexivity;
    [exact Hst | now apply good_push].
Qed.

Lemma runs_newline : runs [Newline].
Proof. intros item st Hst. now exists st. Qed.

(** [path + "p"] is a string. *)
Lemma eval_path_plus (p : string) (item : option value) (st : state) :
  good st -> exists q, eval (Plus Path (Lit p)) item st = Ok (VStr q).
Proof.
  intros [_ [q0 Hq]]. cbn [Code.eval bind]. rewrite Hq, plus_text_left. eauto.
Qed.

Lemma eval_resolve1 (e : expr) (item : option value) (st : state) (q : string) :
  good st -> eval e item st = Ok (VStr q) ->
  exists v, eval (Resolve1 e) item st = Ok v.
Proof.
  intros [Hd _] He. cbn [Code.eval]. rewrite He. cbn [bind].
  now apply resolve_total.
Qed.

Lemma runs_assign (p : string) : runs [Assign (Plus Path (Lit p))].
Proof.
  intros item st Hst. rewrite exec_block_one, exec_Assign.
  destruct (eval_path_plus p item st Hst) as [q ->]. cbn [bind].
  eexists; split; [reflexivity | now apply good_set_path].
Qed.

Lemma runs_scope (body : block) : runs body -> runs [Scope body].
Proof.
  intros Hbody item st Hst. rewrite exec_block_one, exec_Scope.
  destruct (Hbody item st Hst) as (inner & -> & [Hd _]). cbn [bind].
  eexists; split; [reflexivity|]. split; [exact Hd | exact (proj2 Hst)].
Qed.

Lemma runs_dot (p : string) : runs (d_dot bundled p).
Proof.
  intros item st Hst. cbn [d_dot bundled]. rewrite exec_block_one.
  destruct (eval_path_plus p item st Hst) as [q Hq].
  destruct (eval_resolve1 _ item st q Hst Hq) as [v Hv].
  cbn [Code.exec]. rewrite Hv. cbn [bind].
  eexists; split; [reflexivity | now apply good_push].
Qed.

Lemma runs_path (p : string) : runs (d_path bundled p).
Proof.
  intros item st Hst. cbn [d_path bundled]. rewrite exec_block_one.
  destruct (eval_path_plus p item st Hst) as [q Hq].
  cbn [Code.exec]. rewrite Hq. cbn [bind].
  eexists; split; [reflexivity | now apply good_push].
Qed.

Lemma runs_arrow (p : string) (body : block) :
  runs body -> runs (d_arrow bundled p body).
Proof.
  intros Hbody. cbn [d_arrow bundled]. apply runs_scope.
  apply (runs_app [_; _]); [|apply runs_app; [exact Hbody | apply runs_newline]].
  apply runs_cons; [apply runs_assign | apply runs_newline].
Qed.

Lemma runs_has (p : string) (body : block) :
  runs body -> runs (d_has bundled p body).
Proof.
  intros Hbody item st Hst. cbn [d_has bundled].
  rewrite exec_block_one, exec_IfDefined.
  destruct (eval_path_plus p item st Hst) as [q Hq].
  destruct (eval_resolve1 _ item st q Hst Hq) as [v ->]. cbn [bind].
  destruct v; try apply (Hbody item st Hst). now exists st.
Qed.

Lemma runs_each (p : string) (body : block) :
  runs body -> runs (d_each bundled p body).
Proof.
  intros Hbody. cbn [d_each bundled]. apply runs_scope.
  apply runs_cons; [apply runs_assign|].
  apply runs_cons; [apply runs_newline|].
  intros item st Hst. rewrite exec_block_one, exec_Each.
  assert (Hlit : eval (Lit p) item st = Ok (VStr p)) by reflexivity.
  destruct (eval_resolve1 _ item st p Hst Hlit) as [v ->]. cbn [bind].
  apply (each_total good); [|exact Hst].
  intros key _ s1 Hs1.
  rewrite exec_block_one, exec_Scope, exec_block_cons, exec_Assign.
  destruct Hs1 as [Hd [q Hq]].
  cbn [Code.eval bind]. rewrite Hq, !plus_text_left. cbn [bind].
  cbn [to_string].
  destruct (Hbody (Some key) (set_path (VStr (q +++ "." +++ to_string key)) s1))
    as (s2 & -> & [Hd2 _]).
  { split; [exact Hd | eexists; reflexivity]. }
  cbn [bind]. eexists; split; [reflexivity|].
  split; [exact Hd2 | now exists q].
Qed.

Lemma gen_item_bundled (o : options) (s : string) (rest : tree) :
  gen_item bundled o (Sub (Str s :: rest)) =
  let macroName := fst (take_arg s) in
  let lead := snd (take_arg s) in
  let path := normal_path (fst (take_arg lead)) in
  let body :=
    let* cs := gen_children bundled o rest in
    Ok (PushText (snd (take_arg lead)) :: cs) in
  if String.eqb macroName "." then Ok (d_dot bundled path)
  else if String.eqb macroName "->" then let* b := body in Ok (d_arrow bundled path b)
  else if String.eqb macroName "has" then let* b := body in Ok (d_has bundled path b)
  else if String.eqb macroName "each" then let* b := body in Ok (d_each bundled path b)
  else if String.eqb macroName "path" then Ok (d_path bundled path)
  else if String.eqb macroName "out" then
    let* cs := gen_children bundled o rest in Ok (PushText lead :: cs)
  else Throw (d_unknown bundled macroName o).
Proof. reflexivity. Qed.

Lemma gen_children_run (o : options) (l : tree) :
  Forall (fun i => forall b, gen_item bundled o i = Ok b -> runs b) l ->
  forall cs, gen_children bundled o l = Ok cs -> runs cs.
Proof.
  induction 1 as [|x l Hx _ IH]; intros cs; cbn [gen_children].
  - intros [= <-]. apply runs_nil.
  - intros H. apply bind_ok in H. destruct H as (c & Hc & H).
    apply bind_ok in H. destruct H as (cs' & Hcs & H). injection H as <-.
    apply runs_app; [now apply Hx | now apply IH].
Qed.

(** The statements of every node run to their end. *)
Lemma gen_item_runs (o : options) (i : item) :
  forall b, gen_item bundled o i = Ok b -> runs b.
Proof.
  induction i as [s|t IH] using item_ind'; intros b.
  - intros [= <-]. apply runs_text.
  - destruct t as [|[s|u] rest]; try discriminate.
    inversion IH as [|? ? _ Hrest]; subst.
    pose proof (gen_children_run o rest Hrest) as Hchildren.
    assert (Hbody : forall lead b',
               (let* cs := gen_children bundled o rest in Ok (PushText lead :: cs))
               = Ok b' -> runs b').
    { intros lead b' H. apply bind_ok in H. destruct H as (cs & Hcs & H).
      injection H as <-. apply runs_cons; [apply runs_text | now apply Hchildren]. }
    rewrite gen_item_bundled. cbv zeta.
    destruct (String.eqb (fst (take_arg s)) ".");
      [intros [= <-]; apply runs_dot|].
    destruct (String.eqb (fst (take_arg s)) "->").
    { intros H. apply bind_ok in H. destruct H as (b' & Hb' & H).
      injection H as <-. apply runs_arrow. eapply Hbody; eassumption. }
    destruct (String.eqb (fst (take_arg s)) "has").
    { intros H. apply bind_ok in H. destruct H as (b' & Hb' & H).
      injection H as <-. apply runs_has. eapply Hbody; eassumption. }
    destruct (String.eqb (fst (take_arg s)) "each").
    { intros H. apply bind_ok in H. destruct H as (b' & Hb' & H).
      injection H as <-. apply runs_each. eapply Hbody; eassumption. }
    destruct (String.eqb (fst (take_arg s)) "path");
      [intros [= <-]; apply runs_path|].
    destruct (String.eqb (fst (take_arg s)) "out"); [|discriminate].
    apply Hbody.
Qed.

End BundledRun.



(* ================================================================= *)
(** ** The module loader *)

Section LoaderFacts.
Import Require.

Lemma split_slash_cons (s : string) :
  forall acc, exists x l, split_slash acc s = x :: l.
Proof.
  induction s as [|c s IH]; intros acc; cbn [split_slash]; [eauto|].
  destruct (Ascii.eqb c "/"); [eauto | apply IH].
Qed.

Lemma concat_cons (sep x : string) (l : list string) :
  l <> [] -> String.concat sep (x :: l) = x +++ sep +++ String.concat sep l.
Proof. destruct l; [congruence | reflexivity]. Qed.

Lemma concat_snoc (sep x : string) (l : list string) :
  l <> [] -> String.concat sep (l ++ [x]) = String.concat sep l +++ sep +++ x.
Proof.
  induction l as [|y l IH]; [congruence|]. intros _.
  destruct l as [|z l'].
  - reflexivity.
  - change ((y :: z :: l') ++ [x]) with (y :: ((z :: l') ++ [x])).
    rewrite concat_cons by (destruct l'; discriminate).
    rewrite IH by discriminate.
    rewrite (concat_cons sep y (z :: l')) by discriminate.
    now rewrite !StrFacts.app_assoc.
Qed.

(** Joining what [split] gives is the text again. *)
Lemma join_split_slash (s : string) :
  forall acc, join (split_slash acc s) = acc +++ s.
Proof.
  unfold join. induction s as [|c s IH]; intros acc; cbn [split_slash].
  - now rewrite StrFacts.app_nil_r.
  - destruct (Ascii.eqb c "/") eqn:Hc.
    + apply Ascii.eqb_eq in Hc. subst c.
      destruct (split_slash_cons s "") as (x & l & Hsplit).
      rewrite concat_cons by (rewrite Hsplit; discriminate).
      now rewrite IH.
    + rewrite IH. now rewrite StrFacts.app_assoc.
Qed.

Lemma split_slash_app (a b : string) :
  forall acc,
    split_slash acc (a +++ "/" +++ b) = split_slash acc a ++ split_slash "" b.
Proof.
  induction a as [|c a IH]; intros acc; [reflexivity|].
  cbn [String.append split_slash]. destruct (Ascii.eqb c "/"); [|apply IH].
  cbn [app]. now rewrite IH.
Qed.

Lemma split_slash_segment (seg : string) :
  has_char "/" seg = false -> forall acc, split_slash acc seg = [acc +++ seg].
Proof.
  induction seg as [|c seg IH]; intros Hseg acc; cbn [split_slash].
  - now rewrite StrFacts.app_nil_r.
  - cbn [has_char] in Hseg. apply orb_false_iff in Hseg. destruct Hseg as [Hc Hseg].
    rewrite Hc, (IH Hseg). now rewrite StrFacts.app_assoc.
Qed.

Lemma split_nonempty (s : string) : split s <> [].
Proof. unfold split. destruct (split_slash_cons s "") as (x & l & ->). discriminate. Qed.

Lemma normalize_here (curr : string) : normalize curr "." = curr.
Proof.
  unfold normalize. cbn. rewrite List.app_nil_r. apply (join_split_slash curr "").
Qed.

Lemma split_dot_segment (seg : string) :
  has_char "/" seg = false -> split ("./" +++ seg) = ["."; seg].
Proof.
  intros Hseg. unfold split.
  change ("./" +++ seg) with ("." +++ "/" +++ seg).
  now rewrite split_slash_app, (split_slash_segment seg Hseg "").
Qed.

Lemma normalize_loop_child (curr : list string) (seg : string) :
  String.eqb ".." seg = false -> String.eqb "." seg = false ->
  String.eqb "" seg = false ->
  normalize_loop ["."; seg] curr [] = (curr, [seg]).
Proof.
  intros Hup Hhere Hempty. cbn [normalize_loop].
  change (String.eqb ".." ".") with false. change (String.eqb "." ".") with true.
  cbn [negb andb]. now rewrite Hup, Hhere, Hempty.
Qed.

Lemma normalize_child (curr seg : string) :
  has_char "/" seg = false ->
  String.eqb ".." seg = false -> String.eqb "." seg = false ->
  String.eqb "" seg = false ->
  normalize curr ("./" +++ seg) = curr +++ "/" +++ seg.
Proof.
  intros Hseg Hup Hhere Hempty. unfold normalize.
  change (charAt0 ("./" +++ seg)) with ".".
  change (negb (String.eqb "." ".")) with false. cbv iota.
  rewrite (split_dot_segment seg Hseg), (normalize_loop_child _ seg Hup Hhere Hempty).
  unfold join. rewrite concat_snoc by apply split_nonempty.
  fold (join (split curr)). unfold split. now rewrite join_split_slash.
Qed.

Lemma normalize_up (dir seg : string) :
  has_char "/" seg = false ->
  normalize (dir +++ "/" +++ seg) ".." = dir.
Proof.
  intros Hseg. unfold normalize.
  change (charAt0 "..") with ".".
  change (negb (String.eqb "." ".")) with false. cbv iota.
  change (split "..") with [".."]. cbn [normalize_loop].
  change (String.eqb ".." "..") with true. cbv iota.
  unfold split. rewrite split_slash_app, (split_slash_segment seg Hseg "").
  cbn [String.append]. rewrite removelast_last, List.app_nil_r.
  apply (join_split_slash dir "").
Qed.

Lemma lastIndexOf_from_spec (arr : list string) (obj : string) (n : nat) :
  (lastIndexOf_from arr obj n = (-1)%Z /\
   forall j, j < n -> nth j arr "" <> obj) \/
  (exists i, lastIndexOf_from arr obj n = Z.of_nat i /\ i < n /\
             nth i arr "" = obj /\
             forall j, i < j < n -> nth j arr "" <> obj).
Proof.
  induction n as [|n IH]; cbn [lastIndexOf_from].
  - left. split; [reflexivity | intros j Hj; lia].
  - destruct (String.eqb_spec (nth n arr "") obj) as [Heq | Hne].
    + right. exists n. repeat split; [lia | exact Heq | intros j Hj; lia].
    + destruct IH as [[Hnone Hall] | (i & Hi & Hlt & Hnth & Hafter)].
      * left. split; [exact Hnone|]. intros j Hj.
        destruct (Nat.eq_dec j n) as [-> | Hjn]; [exact Hne | apply Hall; lia].
      * right. exists i. repeat split; [exact Hi | lia | exact Hnth |].
        intros j Hj. destruct (Nat.eq_dec j n) as [-> | Hjn];
          [exact Hne | apply Hafter; lia].
Qed.

End LoaderFacts.

(** X18: normalizing the path [.] against a path gives that path back,
    whatever it is: cutting it at the slashes and joining the pieces loses
    nothing. *)
Theorem normalize_current (curr : string) :
  Require.normalize curr "." = curr /\
  Require.join (Require.split curr) = curr.
Proof.
  split; [apply normalize_here | apply (join_split_slash curr "")].
Qed.

(** X19: normalizing [..] against the path of a file gives the directory
    of the file: all of the path before its last slash, and the empty path
    when it has no slash. *)
Theorem normalize_parent (dir file : string) :
  has_char "/" file = false ->
  Require.normalize (dir +++ "/" +++ file) ".." = dir /\
  Require.normalize file ".." = "".
Proof.
  intros Hfile. split; [now apply normalize_up|].
  unfold Require.normalize.
  change (Require.charAt0 "..") with ".".
  change (negb (String.eqb "." ".")) with false. cbv iota.
  change (Require.split "..") with [".."]. cbn [Require.normalize_loop].
  change (String.eqb ".." "..") with true. cbv iota.
  unfold Require.split. now rewrite (split_slash_segment file Hfile "").
Qed.

Lemma normalize_parent_witness :
  has_char "/" "index.js" = false /\
  Require.normalize ("richardparker/lib" +++ "/" +++ "index.js") ".." = "richardparker/lib" /\
  Require.normalize "index.js" ".." = "".
Proof.
  split; [reflexivity|].
  exact (normalize_parent "richardparker/lib" "index.js" eq_refl).
Defined.

(** X20: inside a module, requiring [./name] finds the file of that name
    next to the module: the path is that of the module with its last
    segment replaced by [name]. *)
Theorem relative_resolve_sibling (dir file name : string) :
  has_char "/" file = false ->
  has_char "/" name = false ->
  String.eqb ".." name = false -> String.eqb "." name = false ->
  String.eqb "" name = false ->
  Require.relative_resolve (dir +++ "/" +++ file) ("./" +++ name) =
  dir +++ "/" +++ name.
Proof.
  intros Hfile Hname Hup Hhere Hempty. unfold Require.relative_resolve.
  change (Require.charAt0 ("./" +++ name)) with ".".
  change (String.eqb "/" ".") with false. change (String.eqb "." ".") with true.
  cbv iota. rewrite (normalize_up dir file Hfile).
  now apply normalize_child.
Qed.

Lemma relative_resolve_sibling_witness :
  has_char "/" "index.js" = false /\
  has_char "/" "runtime.js" = false /\
  String.eqb ".." "runtime.js" = false /\ String.eqb "." "runtime.js" = false /\
  String.eqb "" "runtime.js" = false /\
  Require.relative_resolve ("richardparker" +++ "/" +++ "index.js") ("./" +++ "runtime.js") =
  "richardparker" +++ "/" +++ "runtime.js".
Proof.
  repeat (split; [reflexivity|]).
  exact (relative_resolve_sibling "richardparker" "index.js" "runtime.js"
           eq_refl eq_refl eq_refl eq_refl eq_refl).
Defined.

(** X21: [lastIndexOf] returns [-1] exactly when the array does not have
    the element, and otherwise the index of its last occurrence: the
    element is there, and at no later index. *)
Theorem lastIndexOf_spec (arr : list string) (obj : string) :
  (Require.lastIndexOf arr obj = (-1)%Z /\ ~ In obj arr) \/
  (exists i, Require.lastIndexOf arr obj = Z.of_nat i /\
             i < List.length arr /\ nth i arr "" = obj /\
             forall j, i < j < List.length arr -> nth j arr "" <> obj).
Proof.
  unfold Require.lastIndexOf.
  destruct (lastIndexOf_from_spec arr obj (List.length arr))
    as [[Hnone Hall] | Hfound]; [left | right; exact Hfound].
  split; [exact Hnone|]. intros Hin.
  destruct (In_nth arr obj "" Hin) as (j & Hj & Hnth).
  exact (Hall j Hj Hnth).
Qed.

(** X22: inside a module whose path has no segment [deps], requiring a
    bare name - one that starts with neither [/] nor [.] - looks in the
    [deps] directory of the first segment of that path. *)
Theorem relative_resolve_dependency (parent name : string) :
  ~ In "deps" (Require.split parent) ->
  String.eqb "/" (Require.charAt0 name) = false ->
  String.eqb "." (Require.charAt0 name) = false ->
  Require.relative_resolve parent name =
  nth 0 (Require.split parent) "" +++ "/deps/" +++ name.
Proof.
  intros Hdeps Hslash Hdot. unfold Require.relative_resolve.
  rewrite Hslash, Hdot.
  destruct (lastIndexOf_from_spec (Require.split parent) "deps"
              (List.length (Require.split parent)))
    as [[Hnone _] | (i & _ & Hi & Hnth & _)].
  - unfold Require.lastIndexOf. rewrite Hnone.
    change (Z.to_nat (-1 + 1 + 1)) with 1.
    destruct (Require.split parent) as [|first rest] eqn:Hsplit.
    + now destruct (split_nonempty parent).
    + reflexivity.
  - exfalso. apply Hdeps. rewrite <- Hnth. now apply nth_In.
Qed.

Lemma relative_resolve_dependency_witness :
  ~ In "deps" (Require.split "richardparker/index.js") /\
  String.eqb "/" (Require.charAt0 "emitter") = false /\
  String.eqb "." (Require.charAt0 "emitter") = false /\
  Require.relative_resolve "richardparker/index.js" "emitter" =
  nth 0 (Require.split "richardparker/index.js") "" +++ "/deps/" +++ "emitter".
Proof.
  assert (Hno : ~ In "deps" (Require.split "richardparker/index.js")).
  { cbn. intros [H | [H | []]]; discriminate. }
  split; [exact Hno|]. split; [reflexivity|]. split; [reflexivity|].
  exact (relative_resolve_dependency "richardparker/index.js" "emitter" Hno
           eq_refl eq_refl).
Defined.

Section TableFacts.
Variable definition : Type.
Implicit Type t : Require.tables definition.

Lemma has_registered t (path : string) (d : definition) :
  Require.has (Require.modules (Require.register t path d)) path = true.
Proof.
  unfold Require.has, Require.register. cbn [Require.modules lookup].
  now rewrite String.eqb_refl.
Qed.

Lemma resolve_hit t (path : string) :
  Require.has (Require.modules t) path = true ->
  String.eqb (Require.charAt0 path) "/" = false ->
  Require.resolve t path = Some path.
Proof.
  intros Hhas Hslash. unfold Require.resolve. rewrite Hslash.
  cbn [find]. now rewrite Hhas.
Qed.

End TableFacts.



(** X24: [resolve] gives only what the tables hold: the path it returns
    is a registered one - the path asked for, taken without a slash in
    front, or that path with [.js], [.json], [/index.js] or [/index.json]
    after it - or it is what the path with [/index.js] is an alias of. *)
Theorem resolve_sound (definition : Type) (t : Require.tables definition)
  (path found : string) :
  Require.resolve t path = Some found ->
  let bare := if String.eqb (Require.charAt0 path) "/"
              then Require.slice1 path else path in
  (Require.has (Require.modules t) found = true /\
   In found [bare; bare +++ ".js"; bare +++ ".json";
             bare +++ "/index.js"; bare +++ "/index.json"]) \/
  lookup (bare +++ "/index.js") (Require.aliases t) = Some found.
Proof.
  unfold Require.resolve. intros H. cbv zeta in *.
  set (bare := if String.eqb (Require.charAt0 path) "/"
               then Require.slice1 path else path) in *.
  destruct (find (Require.has (Require.modules t)) _) as [hit|] eqn:Hfind.
  - injection H as <-. apply find_some in Hfind. left. tauto.
  - now right.
Qed.

Lemma resolve_sound_witness :
  let t := Require.mkTables [("a/index.js", 0)] [("b/index.js", "a/index.js")] in
  Require.resolve t "/b" = Some "a/index.js" /\
  ((Require.has (Require.modules t) "a/index.js" = true /\
    In "a/index.js" ["b"; "b" +++ ".js"; "b" +++ ".json";
                     "b" +++ "/index.js"; "b" +++ "/index.json"]) \/
   lookup ("b" +++ "/index.js") (Require.aliases t) = Some "a/index.js").
Proof.
  intros t. split; [reflexivity|].
  exact (resolve_sound nat t "/b" "a/index.js" eq_refl).
Defined.

(** X25: [alias(from, to)] goes through only for a registered [from], and
    leaves the registered modules as they are; after it, a path that is
    not registered in any of its five forms and whose [/index.js] form is
    [to] resolves to [from]. *)
Theorem alias_resolves (definition : Type) (t t' : Require.tables definition)
  (from path : string) :
  Require.alias t from (path +++ "/index.js") = Ok t' ->
  String.eqb (Require.charAt0 path) "/" = false ->
  find (Require.has (Require.modules t))
    [path; path +++ ".js"; path +++ ".json";
     path +++ "/index.js"; path +++ "/index.json"] = None ->
  Require.has (Require.modules t) from = true /\
  Require.modules t' = Require.modules t /\
  Require.resolve t' path = Some from.
Proof.
  unfold Require.alias. intros Halias Hslash Hnone.
  destruct (Require.has (Require.modules t) from) eqn:Hfrom; [|discriminate].
  cbn [negb] in Halias. injection Halias as <-.
  split; [reflexivity|]. split; [reflexivity|].
  unfold Require.resolve. rewrite Hslash. cbn [Require.modules Require.aliases].
  rewrite Hnone. cbn [lookup]. now rewrite String.eqb_refl.
Qed.

Lemma alias_resolves_witness :
  let t := Require.mkTables [("manuelstofer-each/index.js", 7)] [] in
  let t' := Require.mkTables [("manuelstofer-each/index.js", 7)]
              [("richardparker/deps/each" +++ "/index.js", "manuelstofer-each/index.js")] in
  Require.alias t "manuelstofer-each/index.js" ("richardparker/deps/each" +++ "/index.js")
    = Ok t' /\
  Require.resolve t' "richardparker/deps/each" = Some "manuelstofer-each/index.js".
Proof.
  intros t t'. split; [reflexivity|].
  exact (proj2 (proj2 (alias_resolves nat t t' "manuelstofer-each/index.js"
                         "richardparker/deps/each" eq_refl eq_refl eq_refl))).
Defined.

(** An unregistered [from] makes [alias] throw, and what it names is in
    the message. *)
Lemma alias_unregistered (definition : Type) (t : Require.tables definition)
  (from to : string) :
  Require.has (Require.modules t) from = false ->
  exists message,
    Require.alias t from to = Throw (Error message) /\ Str.occurs_in from message.
Proof.
  intros Hfrom. unfold Require.alias. rewrite Hfrom. cbn [negb].
  eexists; split; [reflexivity|].
  exists ("Failed to alias " +++ Str.dquote), (Str.dquote +++ ", it does not exist").
  unfold quoted. now str_norm.
Qed.

(* ================================================================= *)
(** ** [each] in the bundled build *)

Section BundledEach.
Import Js Code Gen Bundle RuntimeFacts.

Variable addToPath : value -> value -> outcome value.
Variable resolve : value -> value -> outcome value.

Abbreviation exec_block := (Code.exec_block addToPath resolve).


End BundledEach.


(* ================================================================= *)
(** ** [parse]: the trees it returns, and each of them only once *)

Section ImageFacts.

Lemma brace_free_app (a b : string) :
  brace_free (a +++ b) = brace_free a && brace_free b.
Proof.
  induction a as [|c a IH]; [reflexivity|].
  cbn [String.append brace_free]. now rewrite IH, andb_assoc.
Qed.

Lemma slots_add_to_last (current : tree) (ch : ascii) :
  last_is_str current ->
  Ascii.eqb ch "{" = false -> Ascii.eqb ch "}" = false ->
  forallb slots_brace_free current = true ->
  forallb slots_brace_free (add_to_last current ch) = true.
Proof.
  intros (front & s & ->) Ho Hc. rewrite add_to_last_snoc, !forallb_app.
  cbn [forallb slots_brace_free js_String]. rewrite brace_free_app.
  cbn [Str.char brace_free]. rewrite Ho, Hc. cbn [negb andb].
  now rewrite !andb_true_r.
Qed.

Lemma parse_loop_slots (str : string) :
  forall current stack current' stack',
    last_is_str current ->
    forallb slots_brace_free current = true ->
    Forall (fun p => forallb slots_brace_free p = true) stack ->
    parse_loop str current stack = Ok (current', stack') ->
    forallb slots_brace_free current' = true.
Proof.
  induction str as [|ch rest IH]; intros current stack current' stack' Hl Hc Hs;
    cbn [parse_loop].
  - now intros [= <- _].
  - destruct (Ascii.eqb ch "{") eqn:Ho.
    + apply IH; [apply last_is_str_single | reflexivity | now constructor].
    + destruct (Ascii.eqb ch "}") eqn:Hcl.
      * destruct stack as [|parent below]; [discriminate|].
        inversion Hs as [|? ? Hp Hbelow]; subst.
        apply IH; [apply last_is_str_closed | | exact Hbelow].
        rewrite forallb_app. cbn [forallb slots_brace_free brace_free].
        now rewrite Hp, Hc.
      * apply IH; [now apply add_to_last_str | | exact Hs].
        now apply slots_add_to_last.
Qed.

(** Reading a text without braces adds it to the last slot. *)
Lemma parse_loop_text (s : string) :
  brace_free s = true ->
  forall rest front a stack,
    parse_loop (s +++ rest) (front ++ [Str a]) stack =
    parse_loop rest (front ++ [Str (a +++ s)]) stack.
Proof.
  induction s as [|ch s IH]; intros Hfree rest front a stack.
  - cbn [String.append]. now rewrite StrFacts.app_nil_r.
  - cbn [brace_free] in Hfree. apply andb_true_iff in Hfree.
    destruct Hfree as [Hch Hs]. apply andb_true_iff in Hch. destruct Hch as [Ho Hc].
    apply negb_true_iff in Ho, Hc.
    cbn [String.append parse_loop]. rewrite Ho, Hc, add_to_last_snoc.
    cbn [js_String]. rewrite (IH Hs). now rewrite StrFacts.app_assoc.
Qed.

Lemma unparse_cons (x : item) (l : tree) :
  unparse (x :: l) = unparse_item x +++ unparse l.
Proof. reflexivity. Qed.

Lemma unparse_item_sub (c : tree) : unparse_item (Sub c) = "{" +++ unparse c +++ "}".
Proof. reflexivity. Qed.

Lemma height_all (l : tree) (n : nat) :
  height (Sub l) <= S n -> Forall (fun x => height x <= n) l.
Proof.
  induction l as [|x l IH]; intros H; [constructor|].
  apply height_slot in H. destruct H as [Hx Hl]. constructor; [exact Hx | now apply IH].
Qed.

(** Reading the text of a list of pairs puts the pairs after the last
    slot. *)
Lemma parse_loop_pairs (n : nat) :
  forall m pairs, List.length pairs <= m ->
    Forall (fun x => height x <= n) pairs ->
    well_formed_pairs pairs = true ->
    forallb slots_brace_free pairs = true ->
    forall rest front a stack,
      parse_loop (unparse pairs +++ rest) (front ++ [Str a]) stack =
      parse_loop rest (front ++ Str a :: pairs) stack.
Proof.
  induction n as [|n IHn]; induction m as [|m IHm];
    intros pairs Hlen Hh Hwf Hfree rest front a stack;
    destruct (well_formed_pairs_inv pairs Hwf)
      as [-> | (c & s & pairs' & -> & Hc & Hwf')];
    try reflexivity; try (simpl in Hlen; lia).
  - inversion Hh as [|? ? Hhc _]; subst. simpl in Hhc. lia.
  - inversion Hh as [|? ? Hhc Hh1]; subst. inversion Hh1 as [|? ? _ Hh']; subst.
    cbn [forallb] in Hfree. apply andb_true_iff in Hfree. destruct Hfree as [Hfc Hfree].
    apply andb_true_iff in Hfree. destruct Hfree as [Hfs Hfree'].
    destruct c as [|[c0|u] cpairs]; try discriminate.
    rewrite well_formed_node in Hc.
    cbn [slots_brace_free forallb] in Hfc. apply andb_true_iff in Hfc.
    destruct Hfc as [Hfc0 Hfcp]. cbn [slots_brace_free] in Hfs.
    pose proof (height_all _ _ Hhc) as Hhcp. inversion Hhcp as [|? ? _ Hhcp']; subst.
    rewrite !unparse_cons, unparse_item_sub, unparse_cons.
    cbn [unparse_item]. rewrite !StrFacts.app_assoc.
    cbn [String.append parse_loop Ascii.eqb Bool.eqb].
    pose proof (fun rest stack => parse_loop_text c0 Hfc0 rest [] "" stack) as Htext.
    cbn [String.append app] in Htext. rewrite Htext.
    pose proof (fun rest stack =>
                  IHn (List.length cpairs) cpairs (le_n _) Hhcp' Hc Hfcp rest [] c0 stack)
      as Hinner.
    cbn [app] in Hinner. rewrite Hinner.
    cbn [String.append parse_loop Ascii.eqb Bool.eqb app].
    replace ((front ++ [Str a]) ++ [Sub (Str c0 :: cpairs); Str ""])
      with ((front ++ [Str a; Sub (Str c0 :: cpairs)]) ++ [Str ""])
      by now rewrite <- !List.app_assoc.
    rewrite (parse_loop_text s Hfs). cbn [String.append].
    rewrite IHm; [| simpl in Hlen; lia | exact Hh' | exact Hwf' | exact Hfree'].
    now rewrite <- List.app_assoc.
Qed.

End ImageFacts.

(** X27: no string slot of a tree that [parse] returns has a brace in
    it: the braces of the input are where the nested arrays are. *)
Theorem parse_slots_brace_free (str : string) (o : options) (t : tree) :
  parse str o = Ok t -> slots_brace_free (Sub t) = true.
Proof.
  unfold parse. intros H.
  destruct (parse_loop str [Str ""] []) as [[current stack]| |] eqn:Hloop;
    try discriminate.
  cbn [bind] in H. destruct stack; [|discriminate]. injection H as <-.
  exact (parse_loop_slots str [Str ""] [] current [] (last_is_str_single "")
           eq_refl (Forall_nil _) Hloop).
Qed.

Lemma parse_slots_brace_free_witness :
  parse "a{b {c}d}{}e" no_options =
    Ok [Str "a"; Sub [Str "b "; Sub [Str "c"]; Str "d"]; Str ""; Sub [Str ""]; Str "e"] /\
  slots_brace_free
    (Sub [Str "a"; Sub [Str "b "; Sub [Str "c"]; Str "d"]; Str ""; Sub [Str ""]; Str "e"])
  = true.
Proof.
  split; [reflexivity|].
  exact (parse_slots_brace_free "a{b {c}d}{}e" no_options _ eq_refl).
Defined.

(** X28: every tree in which each array starts with a string and goes on
    in pairs of a nested array and a string, and whose string slots have
    no brace, is the tree [parse] returns for the text the tree is written
    back to: [parse] reaches every such tree, and tells them apart. *)
Theorem parse_of_unparse (t : tree) (o : options) :
  well_formed (Sub t) = true ->
  slots_brace_free (Sub t) = true ->
  parse (unparse t) o = Ok t.
Proof.
  intros Hwf Hfree. destruct t as [|[s0|u] pairs]; try discriminate.
  rewrite well_formed_node in Hwf.
  cbn [slots_brace_free forallb] in Hfree. apply andb_true_iff in Hfree.
  destruct Hfree as [Hs0 Hpairs]. cbn [slots_brace_free] in Hs0.
  unfold parse. rewrite unparse_cons. cbn [unparse_item].
  pose proof (parse_loop_text s0 Hs0 (unparse pairs) [] "" []) as Htext.
  cbn [String.append app] in Htext. rewrite Htext.
  pose proof (parse_loop_pairs (height (Sub pairs)) (List.length pairs) pairs
                (le_n _) (height_all pairs _ (le_S _ _ (le_n _))) Hwf Hpairs
                "" [] s0 []) as H.
  rewrite StrFacts.app_nil_r in H. cbn [app] in H. rewrite H. reflexivity.
Qed.

Lemma parse_of_unparse_witness :
  let t := [Str "a"; Sub [Str "each x "; Sub [Str ". y"]; Str "!"]; Str "";
            Sub [Str ""]; Str "z"] in
  well_formed (Sub t) = true /\
  slots_brace_free (Sub t) = true /\
  parse (unparse t) no_options = Ok t.
Proof.
  intros t. split; [reflexivity|]. split; [reflexivity|].
  exact (parse_of_unparse t no_options eq_refl eq_refl).
Defined.
